(** * duffle: the bundle repository index (pkg/repo/index.go)

    A shallow embedding of [Index] and its operations [Add], [Has], [Get],
    [Merge], [WriteFile] and [loadIndex], and the properties the
    specification states about them.

    Conventions of the embedding.
    - Go strings are byte strings: [string] (a list of 8-bit [ascii]).
    - [Index] is [map[string]map[string]string]; it is modelled by its
      entries, as a finite map of finite maps.  Maps are values here: no
      inner map is shared between two names, and a [nil] map and an
      empty map, which hold the same entries, are not told apart.  Go
      tells them apart in one place, a write to a [nil] map, which
      panics: [Add] is modelled on allocated maps.
    - [for k, v := range m] visits the entries of [m] once each, in an
      order the language leaves open.  A run of a function that ranges
      over a map takes the order as an argument, and the behaviour of the
      function is the relation "some order gives this result".
    - [github.com/Masterminds/semver] is a dependency, not part of the
      repository; the code is verified against its interface
      ([Semver]).  An instance covering the plain MAJOR.MINOR.PATCH
      grammar is used to run the code on concrete inputs.
    - [encoding/json] is modelled on the type of [Index], byte for
      byte ([json.MarshalIndent], [json.Decode]). *)

From stdpp Require Import gmap strings list fin_maps sorting.
From Stdlib Require Import Ascii String NArith ZArith Lia.

Local Open Scope string_scope.

(** ** The semver dependency *)

(** [NewVersion] and [NewConstraint] parse a string or fail (the first
    with an error the callers here discard, the second with an error
    message that [Get] hands back); [Check] decides whether a version
    satisfies a constraint.  Line 77 of index.go drops the error of
    [NewConstraint("*")]: the wildcard is a constraint, [wildcard]. *)
Class Semver := {
  Version : Type;
  Constraints : Type;
  NewVersion : string → option Version;
  NewConstraint : string → string + Constraints;
  Check : Constraints → Version → bool;
  wildcard : Constraints;
  NewConstraint_star : NewConstraint "*" = inr wildcard
}.

(** ** Errors *)

Inductive error : Type :=
  | ErrNoAPIVersion
  | ErrNoBundleVersion
  | ErrNoBundleName
  | ErrSemver (msg : string)   (* an error value made by the semver package *)
  | ErrDecode.                 (* an error of the JSON decoder other than io.EOF *)

#[global] Instance error_eq_dec : EqDecision error.
Proof. solve_decision. Defined.

(** ** Index *)

Abbreviation Index := (gmap string (gmap string string)).

(** One run of [range m]: the entries of [m], each once, in some order. *)
Definition ranges {V : Type} (m : gmap string V) (ord : list (string * V)) : Prop :=
  ord ≡ₚ map_to_list m.

(** [Add] (lines 47-55). *)
Definition Add (i : Index) (name version digest : string) : Index :=
  match i !! name with
  | Some tags => <[name := <[version := digest]> tags]> i
  | None => <[name := {[version := digest]}]> i
  end.

Section Index.
Context `{Semver}.

(** The loop of [Get] (lines 86-96) over the entries in the order
    [ord]. *)
Fixpoint scan (constraint : Constraints) (ord : list (string * string))
  : string * option error :=
  match ord with
  | [] => ("", Some ErrNoBundleVersion)
  | (ver, digest) :: rest =>
      match NewVersion ver with
      | None => scan constraint rest
      | Some test =>
          if Check constraint test then (digest, None)
          else scan constraint rest
      end
  end.

(** Lines 75-84: the constraint [Get] resolves against. *)
Definition constraint_of (version : string) : string + Constraints :=
  if (String.length version =? 0)%nat then inr wildcard
  else NewConstraint version.

(** [Get] (lines 66-97), on a run where [range vs] yields [ord]. *)
Definition Get_run (ord : list (string * string))
    (i : Index) (name version : string) : string * option error :=
  match i !! name with
  | None => ("", Some ErrNoBundleName)
  | Some vs =>
      if (size vs =? 0)%nat then ("", Some ErrNoBundleVersion)
      else match constraint_of version with
           | inl msg => ("", Some (ErrSemver msg))
           | inr constraint => scan constraint ord
           end
  end.

(** [vs] holds a version that parses and satisfies [c]. *)
Definition satisfiable (c : Constraints) (vs : gmap string string) : Prop :=
  ∃ ver digest v,
    vs !! ver = Some digest ∧ NewVersion ver = Some v ∧ Check c v = true.

(** The version map [Get] ranges over. *)
Definition tags_of (i : Index) (name : string) : gmap string string :=
  default ∅ (i !! name).

(** The digest stored under [(name, version)], by raw key lookup. *)
Definition entry (i : Index) (name version : string) : option string :=
  tags_of i name !! version.

(** [Get i name version] may return [r]. *)
Definition Get (i : Index) (name version : string)
    (r : string * option error) : Prop :=
  ∃ ord, ranges (tags_of i name) ord ∧ r = Get_run ord i name version.

(** [Has] (lines 58-61), on one run and as a relation. *)
Definition Has_run (ord : list (string * string))
    (i : Index) (name version : string) : bool :=
  match (Get_run ord i name version).2 with
  | None => true
  | Some _ => false
  end.

Definition Has (i : Index) (name version : string) (b : bool) : Prop :=
  ∃ ord, ranges (tags_of i name) ord ∧ b = Has_run ord i name version.

(** [Merge] (lines 116-124).  The inner loop over the entries of one
    [versionMap], visited in the order of the list. *)
Inductive Merge_versions (name : string)
  : list (string * string) → Index → Index → Prop :=
  | Merge_versions_end i :
      Merge_versions name [] i i
  | Merge_versions_has version digest rest i i' :
      Has i name version true →
      Merge_versions name rest i i' →
      Merge_versions name ((version, digest) :: rest) i i'
  | Merge_versions_add version digest rest i i' :
      Has i name version false →
      Merge_versions name rest (Add i name version digest) i' →
      Merge_versions name ((version, digest) :: rest) i i'.

(** The outer loop over the names of [src]. *)
Inductive Merge_names : list (string * gmap string string) → Index → Index → Prop :=
  | Merge_names_end i :
      Merge_names [] i i
  | Merge_names_step name versionMap ord rest i i1 i2 :
      ranges versionMap ord →
      Merge_versions name ord i i1 →
      Merge_names rest i1 i2 →
      Merge_names ((name, versionMap) :: rest) i i2.

(** [Merge i src i']: merging [src] into [i] may leave [i'] in [i]. *)
Definition Merge (i src i' : Index) : Prop :=
  ∃ ord, ranges src ord ∧ Merge_names ord i i'.

(** [Has] on the run where the version map is visited in its canonical
    order; [Has_run_order] shows the order is immaterial to [Has]. *)
Definition has (i : Index) (name version : string) : bool :=
  Has_run (map_to_list (tags_of i name)) i name version.

(** The body of the inner loop of [Merge] (lines 119-121). *)
Definition merge_step (i : Index) (t : string * string * string) : Index :=
  let '(name, version, digest) := t in
  if has i name version then i else Add i name version digest.

(** [settled i t]: merging the triple [t] into [i] changes nothing,
    because [Has] answers yes or because [t] is stored as it is. *)
Definition settled (i : Index) (t : string * string * string) : Prop :=
  has i t.1.1 t.1.2 = true ∨ entry i t.1.1 t.1.2 = Some t.2.

(** [Merge] on the run that visits the triples of [src] in the order
    [ts]. *)
Definition Merge_run (ts : list (string * string * string)) (i : Index) : Index :=
  foldl merge_step i ts.

(** The triples [(name, version, digest)] of an index, and a traversal
    of them by the two nested [range] loops of [Merge]. *)
Definition triple_of (src : Index) (t : string * string * string) : Prop :=
  ∃ versionMap, src !! t.1.1 = Some versionMap ∧ versionMap !! t.1.2 = Some t.2.

Definition under (name : string) (ord : list (string * string))
  : list (string * string * string) :=
  (λ vd, (name, vd.1, vd.2)) <$> ord.

Inductive visits : list (string * gmap string string) →
                   list (string * string * string) → Prop :=
  | visits_end : visits [] []
  | visits_name name versionMap ord rest ts :
      ranges versionMap ord →
      visits rest ts →
      visits ((name, versionMap) :: rest) (under name ord ++ ts)%list.

Definition traversal (src : Index) (ts : list (string * string * string)) : Prop :=
  ∃ ord, ranges src ord ∧ visits ord ts.

End Index.

(** ** An instance of the semver interface

    The part of the Masterminds grammar made of plain numeric versions:
    - a version is [v?MAJOR(.MINOR)?(.PATCH)?], each number a decimal
      [int64]; a missing [MINOR] or [PATCH] is [0];
    - a constraint is [*], or one of the operators [=], [!=], [>], [<],
      [>=], [=>], [<=], [=<] (or none, meaning [=]) followed by a full
      [v?MAJOR.MINOR.PATCH].
    On these strings the definitions below follow the library:
    versions are compared by major, minor and patch number, and [*] is
    satisfied by every numeric version.  Pre-release and build tags,
    partial and x-range constraints, [~], [^], [,], [||], hyphen ranges
    and blanks lie outside the instance, which rejects them.  The
    library too rejects a string that is empty or begins with a
    letter other than [v], [x] or [X], as a version and as a
    constraint: its patterns ask, after the operator, for a digit or,
    in a constraint, a wildcard mark.  The package is not part of the
    repository; the instance is written from its documented grammar
    ([SemVerRegex], the constraint operators). *)
Module Masterminds.

Record version := mkVersion { major : N; minor : N; patch : N }.

Inductive operator := OpEq | OpNe | OpGt | OpLt | OpGe | OpLe.

Inductive constraint :=
  | Any
  | Cmp (o : operator) (con : version).

Definition is_digit (a : ascii) : bool :=
  ((48 <=? N_of_ascii a) && (N_of_ascii a <=? 57))%N.

Definition max_int64 : N := 9223372036854775807.

(** The value of the longest run of digits at the head of [s], after
    the digits [acc], and what follows it. *)
Fixpoint digits (s : string) (acc : N) : N * string :=
  match s with
  | String a s' =>
      if is_digit a then digits s' (acc * 10 + (N_of_ascii a - 48))%N
      else (acc, s)
  | EmptyString => (acc, s)
  end.

(** [[0-9]+] read by [strconv.ParseInt(_, 10, 64)]. *)
Definition number (s : string) : option (N * string) :=
  match s with
  | String a _ =>
      if is_digit a then
        let '(n, rest) := digits s 0 in
        if (n <=? max_int64)%N then Some (n, rest) else None
      else None
  | EmptyString => None
  end.

(** [(\.[0-9]+)?] *)
Definition dot_number (s : string) : option (option N * string) :=
  match s with
  | String "."%char s' =>
      match number s' with
      | Some (n, rest) => Some (Some n, rest)
      | None => None
      end
  | _ => Some (None, s)
  end.

Definition strip_v (s : string) : string :=
  match s with
  | String "v"%char s' => s'
  | _ => s
  end.

(** The three numbers of [v?MAJOR(.MINOR)?(.PATCH)?], when [s] is
    exactly that. *)
Definition parse_numbers (s : string) : option (N * option N * option N) :=
  match number (strip_v s) with
  | Some (ma, r1) =>
      match dot_number r1 with
      | Some (mi, r2) =>
          match dot_number r2 with
          | Some (pa, EmptyString) => Some (ma, mi, pa)
          | _ => None
          end
      | None => None
      end
  | None => None
  end.

Definition NewVersion (s : string) : option version :=
  match parse_numbers s with
  | Some (ma, mi, pa) => Some (mkVersion ma (default 0%N mi) (default 0%N pa))
  | None => None
  end.

(** The operator at the head of a constraint, and the rest. *)
Definition parse_operator (s : string) : operator * string :=
  match s with
  | String "="%char (String ">"%char r) => (OpGe, r)
  | String "="%char (String "<"%char r) => (OpLe, r)
  | String "="%char r => (OpEq, r)
  | String "!"%char (String "="%char r) => (OpNe, r)
  | String ">"%char (String "="%char r) => (OpGe, r)
  | String "<"%char (String "="%char r) => (OpLe, r)
  | String ">"%char r => (OpGt, r)
  | String "<"%char r => (OpLt, r)
  | _ => (OpEq, s)
  end.

Definition improper (c : string) : string := "improper constraint: " ++ c.

Definition NewConstraint (c : string) : string + constraint :=
  if String.eqb c "*" then inr Any
  else
    let '(o, r) := parse_operator c in
    match parse_numbers r with
    | Some (ma, Some mi, Some pa) => inr (Cmp o (mkVersion ma mi pa))
    | _ => inl (improper c)
    end.

Definition Compare (v w : version) : comparison :=
  match (major v ?= major w)%N with
  | Eq => match (minor v ?= minor w)%N with
          | Eq => (patch v ?= patch w)%N
          | c => c
          end
  | c => c
  end.

Definition check_operator (o : operator) (c : comparison) : bool :=
  match o, c with
  | OpEq, Eq => true
  | OpNe, (Lt | Gt) => true
  | OpGt, Gt => true
  | OpLt, Lt => true
  | OpGe, (Eq | Gt) => true
  | OpLe, (Eq | Lt) => true
  | _, _ => false
  end.

Definition Check (c : constraint) (v : version) : bool :=
  match c with
  | Any => true
  | Cmp o con => check_operator o (Compare v con)
  end.

#[global] Instance semver : Semver :=
  Build_Semver version constraint NewVersion NewConstraint Check Any eq_refl.

End Masterminds.


(** ** The JSON dependency

    [WriteFile] and [loadIndex] go through [encoding/json].  The model
    below follows that package on the one type it is used at here,
    [map[string]map[string]string]: [MarshalIndent] with an empty
    prefix and an indent of four blanks, and [Decoder.Decode] into an
    [Index].  Strings are coerced to valid UTF-8 on both sides, as the
    package documents.  The package belongs to the Go distribution,
    not to the repository; the model is written from its documented
    behaviour. *)
Module json.

Definition code (b : ascii) : N := N_of_ascii b.

Definition byte_in (lo hi : N) (b : ascii) : bool :=
  ((lo <=? code b) && (code b <=? hi))%N.

(** *** UTF-8 ([unicode/utf8]) *)

Definition RuneSelf : N := 128.

(** The replacement character U+FFFD, in UTF-8. *)
Definition RuneError : string :=
  String "239" (String "191" (String "189" "")).

Definition continuation (b : ascii) : bool := byte_in 128 191 b.

(** The range of the second byte, by the first ([acceptRanges]). *)
Definition second (b0 b1 : ascii) : bool :=
  if (code b0 =? 224)%N then byte_in 160 191 b1
  else if (code b0 =? 237)%N then byte_in 128 159 b1
  else if (code b0 =? 240)%N then byte_in 144 191 b1
  else if (code b0 =? 244)%N then byte_in 128 143 b1
  else continuation b1.

(** The width of the encoding that starts with [b0] and goes on with
    [rest], or [0] when no encoding starts there: [DecodeRune] then
    returns [(RuneError, 1)]. *)
Definition width (b0 : ascii) (rest : string) : nat :=
  if byte_in 194 223 b0 then
    match rest with
    | String b1 _ => if continuation b1 then 2 else 0
    | _ => 0
    end
  else if byte_in 224 239 b0 then
    match rest with
    | String b1 (String b2 _) =>
        if second b0 b1 && continuation b2 then 3 else 0
    | _ => 0
    end
  else if byte_in 240 244 b0 then
    match rest with
    | String b1 (String b2 (String b3 _)) =>
        if second b0 b1 && continuation b2 && continuation b3 then 4 else 0
    | _ => 0
    end
  else 0.

(** A string cut into the pieces the encoder and the decoder step
    over: a byte below [RuneSelf], a multi-byte encoding, or a byte
    that starts no encoding. *)
Inductive piece :=
  | Single (b : ascii)
  | Multi (bytes : string)
  | Stray (b : ascii).

Fixpoint pieces (s : string) : list piece :=
  match s with
  | EmptyString => []
  | String b0 r0 =>
      if (code b0 <? RuneSelf)%N then Single b0 :: pieces r0
      else
        match width b0 r0, r0 with
        | 2, String b1 r1 =>
            Multi (String b0 (String b1 "")) :: pieces r1
        | 3, String b1 (String b2 r2) =>
            Multi (String b0 (String b1 (String b2 ""))) :: pieces r2
        | 4, String b1 (String b2 (String b3 r3)) =>
            Multi (String b0 (String b1 (String b2 (String b3 "")))) :: pieces r3
        | _, _ => Stray b0 :: pieces r0
        end
  end.

Definition bytes_of (p : piece) : string :=
  match p with
  | Single b => String b ""
  | Multi bytes => bytes
  | Stray b => String b ""
  end.

Definition is_stray (p : piece) : bool :=
  match p with Stray _ => true | _ => false end.

(** The multi-byte encodings [pieces] cuts out. *)
Definition multi_ok (bytes : string) : Prop :=
  match bytes with
  | String b0 (String b1 "") =>
      byte_in 194 223 b0 = true ∧ continuation b1 = true
  | String b0 (String b1 (String b2 "")) =>
      byte_in 224 239 b0 = true ∧ second b0 b1 = true ∧ continuation b2 = true
  | String b0 (String b1 (String b2 (String b3 ""))) =>
      byte_in 240 244 b0 = true ∧ second b0 b1 = true ∧
      continuation b2 = true ∧ continuation b3 = true
  | _ => False
  end.

Definition piece_ok (p : piece) : Prop :=
  match p with
  | Single b => (code b < RuneSelf)%N
  | Multi bytes => multi_ok bytes
  | Stray b => False
  end.

(** [utf8.ValidString]. *)
Definition ValidString (s : string) : bool :=
  forallb (λ p, negb (is_stray p)) (pieces s).

(** [utf8.EncodeRune], on a code point. *)
Definition EncodeRune (r : N) : string :=
  if (r <? 128)%N then String (ascii_of_N r) ""
  else if (r <? 2048)%N then
    String (ascii_of_N (192 + r / 64))
      (String (ascii_of_N (128 + r mod 64)) "")
  else if ((55296 <=? r) && (r <? 57344) || (1114111 <? r))%N then RuneError
  else if (r <? 65536)%N then
    String (ascii_of_N (224 + r / 4096))
      (String (ascii_of_N (128 + (r / 64) mod 64))
         (String (ascii_of_N (128 + r mod 64)) ""))
  else
    String (ascii_of_N (240 + r / 262144))
      (String (ascii_of_N (128 + (r / 4096) mod 64))
         (String (ascii_of_N (128 + (r / 64) mod 64))
            (String (ascii_of_N (128 + r mod 64)) ""))).

(** *** Encoding ([encode.go], [indent.go]) *)

Definition hex_digit (n : N) : ascii :=
  if (n <? 10)%N then ascii_of_N (48 + n) else ascii_of_N (87 + n).

(** [htmlSafeSet]: the bytes below [RuneSelf] written as they are. *)
Definition htmlSafe (b : ascii) : bool :=
  negb ((code b <? 32)%N || (code b =? 34)%N || (code b =? 38)%N ||
        (code b =? 60)%N || (code b =? 62)%N || (code b =? 92)%N).

Definition backslash : ascii := "092"%char.
Definition quote : ascii := "034"%char.

Definition escape (b : ascii) : string :=
  if (code b =? 92)%N || (code b =? 34)%N then String backslash (String b "")
  else if (code b =? 10)%N then String backslash "n"
  else if (code b =? 13)%N then String backslash "r"
  else if (code b =? 9)%N then String backslash "t"
  else String backslash
         ("u00" ++ String (hex_digit (code b / 16))
                     (String (hex_digit (code b mod 16)) "")).

(** U+2028 and U+2029 are E2 80 A8 and E2 80 A9. *)
Definition line_separator : string :=
  String "226" (String "128" (String "168" "")).
Definition paragraph_separator : string :=
  String "226" (String "128" (String "169" "")).

Definition encode_piece (p : piece) : string :=
  match p with
  | Single b => if htmlSafe b then String b "" else escape b
  | Multi bytes =>
      if String.eqb bytes line_separator then String backslash "u2028"
      else if String.eqb bytes paragraph_separator then String backslash "u2029"
      else bytes
  | Stray _ => String backslash "ufffd"
  end.

(** [encodeState.string] with [escapeHTML]. *)
Definition encode_string (s : string) : string :=
  String quote (String.concat "" (encode_piece <$> pieces s) ++ String quote "").

(** Keys are written in the order of their bytes. *)
Definition key_le {V} (a b : string * V) : Prop := String.leb a.1 b.1 = true.

#[global] Instance key_le_dec {V} (a b : string * V) : Decision (key_le a b).
Proof. unfold key_le. apply _. Defined.

Definition sorted_entries {V} (m : gmap string V) : list (string * V) :=
  merge_sort key_le (map_to_list m).

Definition newline (depth : nat) : string :=
  String "010" (String.concat "" (replicate depth "    ")).

(** An object whose members are [members], at the depth [depth]. *)
Definition object (depth : nat) (members : list string) : string :=
  match members with
  | [] => "{}"
  | _ => "{" ++ newline (S depth) ++
         String.concat ("," ++ newline (S depth)) members ++
         newline depth ++ "}"
  end.

Definition member (key value : string) : string :=
  encode_string key ++ ": " ++ value.

(** The member for the entry [kv] of a map whose values are written
    by [pv]. *)
Definition text {V} (pv : V → string) (kv : string * V) : string :=
  member kv.1 (pv kv.2).

Definition encode_tags (depth : nat) (tags : gmap string string) : string :=
  object depth (text encode_string <$> sorted_entries tags).

(** [json.MarshalIndent(i, "", "    ")]; it returns no error on this
    type. *)
Definition MarshalIndent (i : Index) : string :=
  object 0 (text (encode_tags 1) <$> sorted_entries i).

(** *** Decoding ([scanner.go], [decode.go], [stream.go]) *)

Definition isSpace (c : ascii) : bool :=
  (code c =? 32)%N || (code c =? 9)%N || (code c =? 13)%N || (code c =? 10)%N.

Fixpoint skip_space (s : string) : string :=
  match s with
  | String c rest => if isSpace c then skip_space rest else s
  | EmptyString => s
  end.

Definition hex_value (c : ascii) : option N :=
  if byte_in 48 57 c then Some (code c - 48)%N
  else if byte_in 97 102 c then Some (code c - 87)%N
  else if byte_in 65 70 c then Some (code c - 55)%N
  else None.

(** [getu4], on the four bytes after [\u]. *)
Definition hex4 (h1 h2 h3 h4 : ascii) : option N :=
  match hex_value h1, hex_value h2, hex_value h3, hex_value h4 with
  | Some a, Some b, Some c, Some d => Some (((a * 16 + b) * 16 + c) * 16 + d)%N
  | _, _, _, _ => None
  end.

(** The byte a one-letter escape stands for. *)
Definition unescape (e : ascii) : option ascii :=
  if Ascii.eqb e quote || Ascii.eqb e backslash || Ascii.eqb e "/" then Some e
  else if Ascii.eqb e "b" then Some "008"%char
  else if Ascii.eqb e "f" then Some "012"%char
  else if Ascii.eqb e "n" then Some "010"%char
  else if Ascii.eqb e "r" then Some "013"%char
  else if Ascii.eqb e "t" then Some "009"%char
  else None.

Definition IsSurrogate (r : N) : bool := ((55296 <=? r) && (r <? 57344))%N.

(** [utf16.DecodeRune], when the two halves make a pair. *)
Definition surrogate_pair (r1 r2 : N) : option N :=
  if ((55296 <=? r1) && (r1 <? 56320) && (56320 <=? r2) && (r2 <? 57344))%N
  then Some ((r1 - 55296) * 1024 + (r2 - 56320) + 65536)%N
  else None.

Definition prepend (bytes : string) (r : option (string * string))
  : option (string * string) :=
  match r with
  | Some (s, rest) => Some (bytes ++ s, rest)
  | None => None
  end.

(** A string literal, from the byte after its opening quote: the
    string it denotes and the input after its closing quote.  The
    scanner refuses control characters and unknown escapes; [unquote]
    replaces what is not UTF-8 by U+FFFD. *)
Fixpoint read_string (s : string) : option (string * string) :=
  match s with
  | EmptyString => None
  | String c r0 =>
      if Ascii.eqb c quote then Some ("", r0)
      else if Ascii.eqb c backslash then
        match r0 with
        | EmptyString => None
        | String e r1 =>
            match unescape e with
            | Some b => prepend (String b "") (read_string r1)
            | None =>
                if Ascii.eqb e "u" then
                  match r1 with
                  | String h1 (String h2 (String h3 (String h4 r5))) =>
                      match hex4 h1 h2 h3 h4 with
                      | None => None
                      | Some rr =>
                          if IsSurrogate rr then
                            match r5 with
                            | String c1 (String c2 (String k1 (String k2
                                (String k3 (String k4 r11))))) =>
                                match
                                  (if Ascii.eqb c1 backslash && Ascii.eqb c2 "u"
                                   then hex4 k1 k2 k3 k4 else None)
                                  ≫= surrogate_pair rr
                                with
                                | Some dec =>
                                    prepend (EncodeRune dec) (read_string r11)
                                | None => prepend RuneError (read_string r5)
                                end
                            | _ => prepend RuneError (read_string r5)
                            end
                          else prepend (EncodeRune rr) (read_string r5)
                      end
                  | _ => None
                  end
                else None
            end
        end
      else if (code c <? 32)%N then None
      else if (code c <? RuneSelf)%N then prepend (String c "") (read_string r0)
      else
        match width c r0, r0 with
        | 2, String b1 r1 =>
            prepend (String c (String b1 "")) (read_string r1)
        | 3, String b1 (String b2 r2) =>
            prepend (String c (String b1 (String b2 ""))) (read_string r2)
        | 4, String b1 (String b2 (String b3 r3)) =>
            prepend (String c (String b1 (String b2 (String b3 ""))))
              (read_string r3)
        | _, _ => prepend RuneError (read_string r0)
        end
  end.

(** The literal [null]. *)
Definition read_null (s : string) : option string :=
  match s with
  | String "n" (String "u" (String "l" (String "l" rest))) => Some rest
  | _ => None
  end.

(** The members of an object and its closing brace, from the first
    key on; [fuel] bounds the number of members.  A member read later
    replaces an earlier one with the same key. *)
Fixpoint read_members {V} (read_value : string → option (V * string))
    (fuel : nat) (acc : gmap string V) (s : string)
  : option (gmap string V * string) :=
  match fuel with
  | 0 => None
  | S fuel =>
      match skip_space s with
      | String c s1 =>
          if Ascii.eqb c quote then
            match read_string s1 with
            | Some (key, s2) =>
                match skip_space s2 with
                | String c2 s3 =>
                    if Ascii.eqb c2 ":" then
                      match read_value (skip_space s3) with
                      | Some (v, s4) =>
                          match skip_space s4 with
                          | String c4 s5 =>
                              if Ascii.eqb c4 "," then
                                read_members read_value fuel (<[key := v]> acc) s5
                              else if Ascii.eqb c4 "}" then
                                Some (<[key := v]> acc, s5)
                              else None
                          | EmptyString => None
                          end
                      | None => None
                      end
                    else None
                | EmptyString => None
                end
            | None => None
            end
          else None
      | EmptyString => None
      end
  end.

(** The map after the member [kv] is stored, and the entries that
    are read back as they were written. *)
Definition put {V} (acc : gmap string V) (kv : string * V) : gmap string V :=
  <[kv.1 := kv.2]> acc.

Definition entry_ok {V} (good : V → Prop) (kv : string * V) : Prop :=
  ValidString kv.1 = true ∧ good kv.2.

(** A reader that leaves no more input than it was given. *)
Definition shrinks {V} (rv : string → option (V * string)) : Prop :=
  ∀ s v rest, rv s = Some (v, rest) → (String.length rest ≤ String.length s)%nat.

(** An object, from the byte after its opening brace, read into
    [acc]. *)
Definition read_object {V} (read_value : string → option (V * string))
    (fuel : nat) (acc : gmap string V) (s : string)
  : option (gmap string V * string) :=
  match skip_space s with
  | String c s1 =>
      if Ascii.eqb c "}" then Some (acc, s1)
      else read_members read_value fuel acc s
  | EmptyString => None
  end.

(** A value of type [string]: a string literal, or [null], which
    leaves the empty string. *)
Definition read_digest (s : string) : option (string * string) :=
  match s with
  | String c rest =>
      if Ascii.eqb c quote then read_string rest
      else match read_null s with
           | Some rest' => Some ("", rest')
           | None => None
           end
  | EmptyString => None
  end.

(** A value of type [map[string]string]: an object read into a new
    map, or [null], which leaves a map without entries. *)
Definition read_tags (fuel : nat) (s : string)
  : option (gmap string string * string) :=
  match s with
  | String c rest =>
      if Ascii.eqb c "{" then read_object read_digest fuel ∅ rest
      else match read_null s with
           | Some rest' => Some (∅, rest')
           | None => None
           end
  | EmptyString => None
  end.

(** What [Decode(&i)] reports: [nil] with the value now in [i];
    [io.EOF], when the stream holds no value, with [i] as it was; or
    another error (of syntax, of type, or [io.ErrUnexpectedEOF]), with
    which the content of [i] is left open here. *)
Inductive decoded :=
  | Value (i : Index)
  | EOF
  | Invalid.

(** [json.NewDecoder(r).Decode(&i)] on the stream whose content is
    [input]: the first value of the stream is read, what follows it
    is not.  [fuel] bounds the number of members of an object. *)
Definition Decode_with (fuel : nat) (input : string) (i : Index) : decoded :=
  match skip_space input with
  | EmptyString => EOF
  | String c rest =>
      if Ascii.eqb c "{" then
        match read_object (read_tags fuel) fuel i rest with
        | Some (i', _) => Value i'
        | None => Invalid
        end
      else match read_null (String c rest) with
           | Some _ => Value ∅
           | None => Invalid
           end
  end.

(** An object has fewer members than bytes ([Decode_fuel]). *)
Definition Decode (input : string) (i : Index) : decoded :=
  Decode_with (S (String.length input)) input i.

End json.

(** ** Reading and writing an index *)

(** What [loadIndex] returns: [(i, nil)], or [(i, err)] with an index
    the caller is not to use. *)
Inductive loaded :=
  | Loaded (i : Index)
  | LoadError (e : error).

(** [loadIndex] (lines 127-133), on a reader whose content is [r]. *)
Definition loadIndex (r : string) : loaded :=
  let i : Index := ∅ in
  match json.Decode r i with
  | json.Value i' => Loaded i'
  | json.EOF => Loaded i
  | json.Invalid => LoadError ErrDecode
  end.

(** [LoadIndexBuffer] (lines 42-44). *)
Definition LoadIndexBuffer (data : string) : loaded := loadIndex data.

(** [WriteFile] (lines 102-108): the bytes [b] it hands to
    [ioutil.WriteFile]; the write itself is left to the file system. *)
Definition WriteFile_bytes (i : Index) : string := json.MarshalIndent i.

(** An index whose names, versions and digests are valid UTF-8. *)
Definition valid_tags (tags : gmap string string) : Prop :=
  map_Forall (λ version digest,
    json.ValidString version = true ∧ json.ValidString digest = true) tags.

Definition valid_index (i : Index) : Prop :=
  map_Forall (λ name tags, json.ValidString name = true ∧ valid_tags tags) i.

#[global] Instance valid_tags_dec tags : Decision (valid_tags tags).
Proof. unfold valid_tags. apply _. Defined.

#[global] Instance valid_index_dec i : Decision (valid_index i).
Proof. unfold valid_index. apply _. Defined.

(** A stream that holds blanks only. *)
Fixpoint blank (s : string) : bool :=
  match s with
  | EmptyString => true
  | String c rest => json.isSpace c && blank rest
  end.

(** What is left of a string once it is written and read back: each
    byte that starts no encoding is written as the escape of U+FFFD
    ([encodeState.string]) and read as U+FFFD. *)
Definition replaced (p : json.piece) : string :=
  match p with
  | json.Stray _ => json.RuneError
  | _ => json.bytes_of p
  end.

Definition coerce (s : string) : string :=
  String.concat "" (replaced <$> json.pieces s).

(** The map after a member is read back: its key is coerced, its
    value is what [cv] leaves of it; and a written map read back. *)
Definition put_read {V} (cv : V → V) (acc : gmap string V) (kv : string * V)
  : gmap string V :=
  <[coerce kv.1 := cv kv.2]> acc.

Definition reread {V} (cv : V → V) (m : gmap string V) : gmap string V :=
  foldl (put_read cv) ∅ (json.sorted_entries m).

(** * Properties *)

Section IndexFacts.
Context `{Semver}.

Implicit Types (i src : Index) (vs : gmap string string).
Implicit Types (name version digest ver : string).
Implicit Types (ord : list (string * string)).

Lemma length_zero s : (String.length s =? 0)%nat = true ↔ s = "".
Proof.
  destruct s; simpl; split; intros E; try done.
Qed.


Lemma constraint_of_nonempty version :
  version ≠ "" → constraint_of version = NewConstraint version.
Proof.
  intros Hne. unfold constraint_of.
  destruct (String.length version =? 0)%nat eqn:E; [|done].
  by apply length_zero in E.
Qed.

Lemma ranges_elem vs ord ver digest :
  ranges vs ord → (ver, digest) ∈ ord ↔ vs !! ver = Some digest.
Proof.
  intros Hp. rewrite Hp. apply elem_of_map_to_list.
Qed.

Lemma ranges_canonical {V} (m : gmap string V) : ranges m (map_to_list m).
Proof. unfold ranges. reflexivity. Qed.

Lemma ranges_empty {V} (ord : list (string * V)) : ranges (∅ : gmap string V) ord → ord = [].
Proof.
  unfold ranges. rewrite map_to_list_empty. apply Permutation_nil_r.
Qed.

(** The loop returns a digest exactly when it meets an entry that
    parses and satisfies the constraint, and then it is the digest of
    such an entry. *)
Lemma scan_found c ord digest :
  scan c ord = (digest, None) →
  ∃ ver v, (ver, digest) ∈ ord ∧ NewVersion ver = Some v ∧ Check c v = true.
Proof.
  induction ord as [|[ver d] rest IH]; simpl; [done|].
  destruct (NewVersion ver) as [v|] eqn:Ev.
  - destruct (Check c v) eqn:Ec.
    + intros [= ->]. exists ver, v. split; [apply elem_of_cons; by left|done].
    + intros (ver' & v' & Hin & ?)%IH. exists ver', v'.
      split; [apply elem_of_cons; by right|done].
  - intros (ver' & v' & Hin & ?)%IH. exists ver', v'.
    split; [apply elem_of_cons; by right|done].
Qed.

Lemma scan_result c ord :
  (∃ digest, scan c ord = (digest, None)) ∨
  scan c ord = ("", Some ErrNoBundleVersion).
Proof.
  induction ord as [|[ver d] rest IH]; simpl; [by right|].
  destruct (NewVersion ver) as [v|]; [|done].
  destruct (Check c v); [left; by eexists|done].
Qed.

Lemma scan_missed c ord :
  scan c ord = ("", Some ErrNoBundleVersion) →
  ∀ ver digest v, (ver, digest) ∈ ord → NewVersion ver = Some v → Check c v = false.
Proof.
  induction ord as [|[ver d] rest IH]; simpl; intros Hs ver' d' v' Hin Hv.
  - by apply elem_of_nil in Hin.
  - apply elem_of_cons in Hin as [[= -> ->]|Hin].
    + rewrite Hv in Hs. by destruct (Check c v').
    + destruct (NewVersion ver) as [v|]; [|by eapply IH].
      destruct (Check c v); [done|by eapply IH].
Qed.

Lemma scan_ok_iff c vs ord :
  ranges vs ord → (scan c ord).2 = None ↔ satisfiable c vs.
Proof.
  intros Hr. split.
  - destruct (scan c ord) as [d e] eqn:Es. simpl. intros ->.
    apply scan_found in Es as (ver & v & Hin & ? & ?).
    exists ver, d, v. by rewrite <-(ranges_elem vs ord).
  - intros (ver & d & v & Hl & Hv & Hc).
    destruct (scan_result c ord) as [[d' ->]|Hs]; [done|].
    rewrite <-(ranges_elem vs ord) in Hl by done.
    by rewrite (scan_missed _ _ Hs _ _ _ Hl Hv) in Hc.
Qed.

(** When every satisfying entry carries the same digest, the loop
    returns it whatever the order. *)
Lemma scan_unique c ord digest :
  (∃ ver v, (ver, digest) ∈ ord ∧ NewVersion ver = Some v ∧ Check c v = true) →
  (∀ ver d v, (ver, d) ∈ ord → NewVersion ver = Some v → Check c v = true →
              d = digest) →
  scan c ord = (digest, None).
Proof.
  intros (ver & v & Hin & Hv & Hc) Huniq.
  destruct (scan_result c ord) as [[d Hs]|Hs].
  - rewrite Hs. apply scan_found in Hs as (ver' & v' & Hin' & Hv' & Hc').
    by rewrite (Huniq _ _ _ Hin' Hv' Hc').
  - by rewrite (scan_missed _ _ Hs _ _ _ Hin Hv) in Hc.
Qed.

(** [Get] always returns: a run exists for each order. *)
Lemma Get_total i name version : ∃ r, Get i name version r.
Proof.
  exists (Get_run (map_to_list (tags_of i name)) i name version).
  exists (map_to_list (tags_of i name)). split; [apply ranges_canonical|done].
Qed.

Lemma tags_of_Some i name vs : i !! name = Some vs → tags_of i name = vs.
Proof. unfold tags_of. by intros ->. Qed.

Lemma size_zero vs : (size vs =? 0)%nat = true ↔ vs = ∅.
Proof. rewrite Nat.eqb_eq. apply map_size_empty_iff. Qed.

Lemma size_nonzero vs : vs ≠ ∅ → (size vs =? 0)%nat = false.
Proof.
  intros Hne. destruct (size vs =? 0)%nat eqn:E; [|done].
  by apply size_zero in E.
Qed.

(** [Get] past its guards. *)
Lemma Get_run_scan ord i name version vs c :
  i !! name = Some vs → vs ≠ ∅ → constraint_of version = inr c →
  Get_run ord i name version = scan c ord.
Proof.
  intros Hi Hne Hc. unfold Get_run. by rewrite Hi, size_nonzero, Hc.
Qed.

End IndexFacts.

(** ** Get *)

Section GetSpec.
Context `{Semver}.

Implicit Types (i src : Index) (vs : gmap string string).
Implicit Types (name version digest ver : string).

(** C7. If [name] has no entry in [i], [Get(name, version)] fails with
    [ErrNoBundleName] for every [version], empty, valid or not: the
    name is looked up before the constraint is parsed. *)
Theorem Get_unknown_name i name version r :
  i !! name = None →
  Get i name version r ↔ r = ("", Some ErrNoBundleName).
Proof.
  intros Hi. unfold Get, Get_run. rewrite Hi. split.
  - by intros (ord & _ & ->).
  - intros ->. exists []. split; [|done].
    unfold ranges, tags_of. rewrite Hi. simpl. by rewrite map_to_list_empty.
Qed.

(** C10. Whenever [Get(name, version)] returns a digest and no error,
    the digest is stored in [i] under [name] and a version key that
    parses as a semantic version and satisfies the constraint (the
    wildcard for the empty string). *)
Theorem Get_sound i name version digest :
  Get i name version (digest, None) →
  ∃ vs c ver v,
    i !! name = Some vs ∧ constraint_of version = inr c ∧
    vs !! ver = Some digest ∧ NewVersion ver = Some v ∧ Check c v = true.
Proof.
  intros (ord & Hr & Hg). unfold Get_run in Hg.
  destruct (i !! name) as [vs|] eqn:Hi; [|done].
  destruct (size vs =? 0)%nat; [done|].
  destruct (constraint_of version) as [msg|c]; [done|].
  symmetry in Hg. apply scan_found in Hg as (ver & v & Hin & Hv & Hc).
  exists vs, c, ver, v. repeat split; try done.
  rewrite (tags_of_Some _ _ _ Hi) in Hr. by apply (ranges_elem vs ord).
Qed.

(** A constraint that a recorded version satisfies is resolved, to the
    digest of a recorded version that satisfies it. *)
Lemma Get_satisfiable i name version vs c r :
  i !! name = Some vs → constraint_of version = inr c → satisfiable c vs →
  Get i name version r →
  ∃ ver digest v, r = (digest, None) ∧ vs !! ver = Some digest ∧
                  NewVersion ver = Some v ∧ Check c v = true.
Proof.
  intros Hi Hc (ver0 & d0 & v0 & Hl & Hv & Hcv) (ord & Hr & ->).
  rewrite (tags_of_Some _ _ _ Hi) in Hr.
  assert (vs ≠ ∅) as Hne by (intros ->; by rewrite lookup_empty in Hl).
  rewrite (Get_run_scan ord i name version vs c) by done.
  destruct (scan_result c ord) as [[d Hs]|Hs].
  - rewrite Hs. apply scan_found in Hs as (ver & v & Hin & Hpv & Hcv').
    exists ver, d, v. repeat split; try done. by apply (ranges_elem vs ord).
  - apply (ranges_elem vs ord) in Hl; [|done].
    by rewrite (scan_missed _ _ Hs _ _ _ Hl Hv) in Hcv.
Qed.


(** C6 (as amended). If [name] is present in [i] with at least one
    recorded version and [version] is non-empty and does not parse as
    a constraint, [Get(name, version)] returns no digest and the error
    of the constraint parser. *)
Theorem Get_invalid_constraint i name vs version msg r :
  i !! name = Some vs → vs ≠ ∅ →
  version ≠ "" → NewConstraint version = inl msg →
  Get i name version r ↔ r = ("", Some (ErrSemver msg)).
Proof.
  intros Hi Hne Hv Hc.
  assert (∀ ord, Get_run ord i name version = ("", Some (ErrSemver msg))) as E.
  { intros ord. unfold Get_run.
    by rewrite Hi, size_nonzero, constraint_of_nonempty, Hc. }
  split.
  - intros (ord & _ & ->). apply E.
  - intros ->. destruct (Get_total i name version) as (r & ord & Hr & ->).
    exists ord. by rewrite E.
Qed.

End GetSpec.

(** ** Add *)

Section AddSpec.
Context `{Semver}.

Implicit Types (i src : Index) (vs : gmap string string).
Implicit Types (name version digest ver : string).

Lemma tags_of_Add i name version digest :
  tags_of (Add i name version digest) name = <[version := digest]> (tags_of i name).
Proof.
  unfold tags_of, Add. destruct (i !! name) as [tags|] eqn:Hi; simpl.
  - by rewrite lookup_insert_eq.
  - rewrite lookup_insert_eq. simpl. by rewrite insert_empty.
Qed.

Lemma tags_of_Add_ne i name version digest name' :
  name ≠ name' →
  tags_of (Add i name version digest) name' = tags_of i name'.
Proof.
  intros Hne. unfold tags_of, Add.
  destruct (i !! name); by rewrite lookup_insert_ne.
Qed.

Lemma Add_lookup i name version digest :
  Add i name version digest !! name = Some (<[version := digest]> (tags_of i name)).
Proof.
  unfold tags_of, Add. destruct (i !! name) as [tags|] eqn:Hi; simpl.
  - by rewrite lookup_insert_eq.
  - by rewrite lookup_insert_eq, insert_empty.
Qed.

Lemma Add_lookup_ne i name version digest name' :
  name ≠ name' → Add i name version digest !! name' = i !! name'.
Proof.
  intros Hne. unfold Add. destruct (i !! name); by rewrite lookup_insert_ne.
Qed.

Lemma entry_Add i name version digest :
  entry (Add i name version digest) name version = Some digest.
Proof. unfold entry. by rewrite tags_of_Add, lookup_insert_eq. Qed.

Lemma entry_Add_ne i name version digest name' version' :
  (name, version) ≠ (name', version') →
  entry (Add i name version digest) name' version' = entry i name' version'.
Proof.
  intros Hne. unfold entry. destruct (decide (name = name')) as [<-|Hn].
  - rewrite tags_of_Add, lookup_insert_ne; [done|]. by intros <-.
  - by rewrite tags_of_Add_ne.
Qed.

(** Adding what is there changes nothing. *)
Lemma Add_id i name version digest :
  entry i name version = Some digest → Add i name version digest = i.
Proof.
  unfold entry, tags_of, Add. destruct (i !! name) as [tags|] eqn:Hi; simpl.
  - intros Hl. by rewrite (insert_id tags), (insert_id i).
  - by rewrite lookup_empty.
Qed.

(** C1 (as amended). Let [version] parse as a version and as a
    constraint which that version satisfies.  After
    [Add(name, version, digest)], [Get(name, version)] returns without
    error the digest of a recorded version of [name] that satisfies
    the constraint; it returns [digest] when no other version recorded
    under [name] parses to a version satisfying it. *)
Theorem Add_then_Get i name version digest c v :
  constraint_of version = inr c →
  NewVersion version = Some v →
  Check c v = true →
  let i' := Add i name version digest in
  (∀ r, Get i' name version r →
        ∃ ver d w, r = (d, None) ∧ entry i' name ver = Some d ∧
                   NewVersion ver = Some w ∧ Check c w = true) ∧
  ((∀ ver d w, entry i name ver = Some d → ver ≠ version →
               NewVersion ver = Some w → Check c w = false) →
   ∀ r, Get i' name version r ↔ r = (digest, None)).
Proof.
  intros Hc Hv Hcv i'.
  pose proof (Add_lookup i name version digest) as Hi'. fold i' in Hi'.
  assert (<[version:=digest]> (tags_of i name) ≠ ∅) as Hne
    by apply insert_non_empty.
  assert (tags_of i' name = <[version:=digest]> (tags_of i name)) as Ht
    by apply tags_of_Add.
  assert (∀ ord, ranges (tags_of i' name) ord →
                 (version, digest) ∈ ord) as Hin.
  { intros ord Hr. apply (ranges_elem _ _ _ _ Hr).
    by rewrite Ht, lookup_insert_eq. }
  split.
  - intros r Hg.
    destruct (Get_satisfiable i' name version _ c r Hi' Hc)
      as (ver & d & w & -> & Hl & Hw & Hcw); [|done|].
    + exists version, digest, v. by rewrite lookup_insert_eq.
    + exists ver, d, w. unfold entry. by rewrite Ht.
  - intros Hother.
    assert (∀ ord, ranges (tags_of i' name) ord →
                   Get_run ord i' name version = (digest, None)) as E.
    { intros ord Hr.
      rewrite (Get_run_scan ord i' name version _ c Hi' Hne Hc).
      apply scan_unique; [by exists version, v; split; [apply Hin|]|].
      intros ver d w Hin' Hw Hcw.
      apply (ranges_elem _ _ _ _ Hr) in Hin'. rewrite Ht in Hin'.
      destruct (decide (ver = version)) as [->|Hne'].
      - rewrite lookup_insert_eq in Hin'. congruence.
      - rewrite lookup_insert_ne in Hin' by done.
        by rewrite (Hother ver d w Hin' Hne' Hw) in Hcw. }
    intros r. split.
    + intros (ord & Hr & ->). by apply E.
    + intros ->. destruct (Get_total i' name version) as (r & ord & Hr & ->).
      exists ord. by rewrite E.
Qed.

End AddSpec.

(** ** Has *)

Section HasSpec.
Context `{Semver}.

Implicit Types (i src : Index) (vs : gmap string string).
Implicit Types (name version digest ver : string).

(** What [Has] answers, in terms of the content of the index: a match
    of the constraint, not the presence of the key. *)
Lemma Has_run_iff ord i name version :
  ranges (tags_of i name) ord →
  Has_run ord i name version = true ↔
  ∃ vs c, i !! name = Some vs ∧ constraint_of version = inr c ∧ satisfiable c vs.
Proof.
  intros Hr. unfold Has_run, Get_run.
  destruct (i !! name) as [vs|] eqn:Hi; simpl; [|split; [done|]].
  2: { by intros (? & ? & ? & _). }
  rewrite (tags_of_Some _ _ _ Hi) in Hr.
  destruct (size vs =? 0)%nat eqn:Hs; simpl.
  { apply size_zero in Hs as ->. split; [done|].
    intros (? & c & [= <-] & _ & ver & d & v & Hl & _).
    by rewrite lookup_empty in Hl. }
  destruct (constraint_of version) as [msg|c] eqn:Hc; simpl.
  { split; [done|]. by intros (? & ? & _ & ? & _). }
  pose proof (scan_ok_iff c vs ord Hr) as Hok.
  destruct (scan c ord) as [d [e|]]; simpl in *.
  - split; [done|]. intros (? & ? & [= <-] & [= <-] & Hsat).
    by apply Hok in Hsat.
  - split; [|done]. intros _. exists vs, c. repeat split. by apply Hok.
Qed.

(** The answer does not depend on the order of the iteration. *)
Lemma Has_run_order ord i name version :
  ranges (tags_of i name) ord →
  Has_run ord i name version = has i name version.
Proof.
  intros Hr. unfold has.
  pose proof (Has_run_iff ord i name version Hr) as H1.
  pose proof (Has_run_iff _ i name version (ranges_canonical _)) as H2.
  destruct (Has_run ord i name version),
    (Has_run (map_to_list (tags_of i name)) i name version); try done.
  - symmetry. apply H2, H1. done.
  - apply H1, H2. done.
Qed.

Lemma Has_iff i name version b : Has i name version b ↔ b = has i name version.
Proof.
  split.
  - intros (ord & Hr & ->). by apply Has_run_order.
  - intros ->. exists (map_to_list (tags_of i name)).
    split; [apply ranges_canonical|done].
Qed.

Lemma has_true_iff i name version :
  has i name version = true ↔
  ∃ vs c, i !! name = Some vs ∧ constraint_of version = inr c ∧ satisfiable c vs.
Proof. apply Has_run_iff, ranges_canonical. Qed.

(** A version that does not parse as a constraint is never had. *)
Lemma has_invalid_constraint i name version msg :
  version ≠ "" → NewConstraint version = inl msg → has i name version = false.
Proof.
  intros Hne Hc. destruct (has i name version) eqn:E; [|done].
  apply has_true_iff in E as (vs & c & _ & Hc' & _).
  rewrite constraint_of_nonempty in Hc' by done. congruence.
Qed.

(** [Add] never turns a positive answer of [Has] into a negative one. *)
Lemma has_Add i name version digest name' version' :
  has i name' version' = true →
  has (Add i name version digest) name' version' = true.
Proof.
  rewrite !has_true_iff. intros (vs & c & Hi & Hc & ver & d & v & Hl & Hv & Hcv).
  destruct (decide (name = name')) as [<-|Hne].
  - exists (<[version:=digest]> vs), c.
    rewrite Add_lookup, (tags_of_Some _ _ _ Hi). repeat split; try done.
    destruct (decide (ver = version)) as [->|Hne].
    + exists version, digest, v. by rewrite lookup_insert_eq.
    + exists ver, d, v. by rewrite lookup_insert_ne.
  - exists vs, c. rewrite Add_lookup_ne by done. repeat split; try done.
    by exists ver, d, v.
Qed.

End HasSpec.

(** ** Merge *)

Section MergeSpec.
Context `{Semver}.

Implicit Types (i src : Index) (vs : gmap string string).
Implicit Types (name version digest ver : string).
Implicit Types (t : string * string * string).
Implicit Types (ts : list (string * string * string)).

Lemma Merge_run_app ts1 ts2 i :
  Merge_run (ts1 ++ ts2) i = Merge_run ts2 (Merge_run ts1 i).
Proof. apply foldl_app. Qed.

Lemma Merge_run_cons t ts i :
  Merge_run (t :: ts) i = Merge_run ts (merge_step i t).
Proof. done. Qed.

(** The two loops of [Merge] are a fold of [merge_step] over a
    traversal of the triples of [src]. *)
Lemma Merge_versions_run name ord i i' :
  Merge_versions name ord i i' ↔ i' = Merge_run (under name ord) i.
Proof.
  split.
  - induction 1 as [i|version digest rest i i' Hh _ IH
                     |version digest rest i i' Hh _ IH]; [done| |];
      apply Has_iff in Hh; unfold under; rewrite fmap_cons, Merge_run_cons;
      simpl; by rewrite <-Hh.
  - revert i i'. induction ord as [|[version digest] rest IH]; intros i i' ->.
    { constructor. }
    unfold under. rewrite fmap_cons, Merge_run_cons. simpl. fold (under name rest).
    destruct (has i name version) eqn:Hh.
    + apply Merge_versions_has; [by apply Has_iff|by apply IH].
    + apply Merge_versions_add; [by apply Has_iff|by apply IH].
Qed.

Lemma Merge_names_run ords i i' :
  Merge_names ords i i' ↔ ∃ ts, visits ords ts ∧ i' = Merge_run ts i.
Proof.
  split.
  - induction 1 as [i|name versionMap ord rest i i1 i2 Hr Hv _ IH].
    { exists []. split; [constructor|done]. }
    destruct IH as (ts & Hts & ->). apply Merge_versions_run in Hv as ->.
    exists (under name ord ++ ts)%list. split; [by constructor|].
    by rewrite Merge_run_app.
  - intros (ts & Hv & ->). revert i.
    induction Hv as [|name versionMap ord rest ts Hr _ IH]; intros i.
    { constructor. }
    rewrite Merge_run_app. econstructor; [done| |apply IH].
    by apply Merge_versions_run.
Qed.

Lemma Merge_iff i src i' :
  Merge i src i' ↔ ∃ ts, traversal src ts ∧ i' = Merge_run ts i.
Proof.
  split.
  - intros (ords & Hr & (ts & Hv & ->)%Merge_names_run).
    exists ts. split; [by exists ords|done].
  - intros (ts & (ords & Hr & Hv) & ->). exists ords. split; [done|].
    apply Merge_names_run. by exists ts.
Qed.

(** A traversal visits the triples of [src] and nothing else. *)
Lemma visits_elem ords ts t :
  visits ords ts →
  t ∈ ts ↔ ∃ versionMap, (t.1.1, versionMap) ∈ ords ∧ versionMap !! t.1.2 = Some t.2.
Proof.
  induction 1 as [|name versionMap ord rest ts Hr _ IH].
  { split; [by intros ?%elem_of_nil|]. by intros (? & ?%elem_of_nil & _). }
  rewrite elem_of_app, IH. unfold under. rewrite list_elem_of_fmap. split.
  - intros [([ver d] & -> & Hin)|(vm & Hin & Hl)]; simpl in *.
    + exists versionMap. split; [apply elem_of_cons; by left|].
      by apply (ranges_elem versionMap ord).
    + exists vm. split; [apply elem_of_cons; by right|done].
  - intros (vm & [[= Hn ->]|Hin]%elem_of_cons & Hl).
    + left. exists (t.1.2, t.2). split.
      * rewrite <-Hn. by destruct t as [[??]?].
      * by apply (ranges_elem versionMap ord).
    + right. by exists vm.
Qed.

Lemma traversal_elem src ts t : traversal src ts → t ∈ ts ↔ triple_of src t.
Proof.
  intros (ords & Hr & Hv). rewrite (visits_elem ords ts t Hv). unfold triple_of.
  split; intros (vm & Hin & Hl); exists vm; split; try done.
  - apply elem_of_map_to_list. by rewrite <-Hr.
  - rewrite Hr. by apply elem_of_map_to_list.
Qed.

Lemma visits_total (ords : list (string * gmap string string)) : ∃ ts, visits ords ts.
Proof.
  induction ords as [|[name versionMap] rest [ts IH]].
  - exists []. constructor.
  - exists (under name (map_to_list versionMap) ++ ts)%list.
    constructor; [apply ranges_canonical|done].
Qed.

Lemma traversal_total src : ∃ ts, traversal src ts.
Proof.
  destruct (visits_total (map_to_list src)) as [ts Hv].
  exists ts, (map_to_list src). split; [apply ranges_canonical|done].
Qed.

(** [Merge] always ends. *)
Lemma Merge_total i src : ∃ i', Merge i src i'.
Proof.
  destruct (traversal_total src) as [ts Ht].
  exists (Merge_run ts i). apply Merge_iff. by exists ts.
Qed.

(** A pair [(name, version)] has one digest in [src]. *)
Lemma triple_of_functional src t t' :
  triple_of src t → triple_of src t' → t.1 = t'.1 → t.2 = t'.2.
Proof.
  destruct t as [[n v] d], t' as [[n' v'] d']. simpl.
  intros (vm & Hn & Hv) (vm' & Hn' & Hv') [= <- <-]. simpl in *. congruence.
Qed.

Lemma settled_fixed i t : settled i t → merge_step i t = i.
Proof.
  destruct t as [[n v] d]. unfold settled, merge_step. simpl.
  intros [->|He]; [done|]. destruct (has i n v); [done|by apply Add_id].
Qed.

Lemma settled_self i t : settled (merge_step i t) t.
Proof.
  destruct t as [[n v] d]. unfold settled, merge_step. simpl.
  destruct (has i n v) eqn:Hh; [by left|right; apply entry_Add].
Qed.

Lemma settled_step i t t' :
  (t'.1 = t.1 → t'.2 = t.2) → settled i t → settled (merge_step i t') t.
Proof.
  destruct t as [[n v] d], t' as [[n' v'] d']. unfold settled, merge_step.
  simpl. intros Hf Hs. destruct (has i n' v') eqn:Hh; [done|].
  destruct Hs as [Hs|Hs]; [left; by apply has_Add|right].
  destruct (decide ((n', v') = (n, v))) as [[= -> ->]|Hne].
  - rewrite Hf by done. apply entry_Add.
  - by rewrite entry_Add_ne.
Qed.

Lemma settled_run ts i t :
  (∀ t', t' ∈ ts → t'.1 = t.1 → t'.2 = t.2) →
  settled i t → settled (Merge_run ts i) t.
Proof.
  revert i. induction ts as [|t' ts IH]; intros i Hf Hs; [done|].
  rewrite Merge_run_cons. apply IH.
  - intros t'' Hin. apply Hf, elem_of_cons. by right.
  - apply settled_step; [|done]. apply Hf, elem_of_cons. by left.
Qed.

(** After a run over [ts], every triple of [ts] is settled. *)
Lemma Merge_run_settles ts i t :
  (∀ t', t' ∈ ts → t'.1 = t.1 → t'.2 = t.2) →
  t ∈ ts → settled (Merge_run ts i) t.
Proof.
  intros Hf (ts1 & ts2 & ->)%list_elem_of_split.
  rewrite Merge_run_app, Merge_run_cons. apply settled_run.
  - intros t' Hin. apply Hf. rewrite elem_of_app, elem_of_cons. auto.
  - apply settled_self.
Qed.

Lemma Merge_run_fixed ts i :
  (∀ t, t ∈ ts → settled i t) → Merge_run ts i = i.
Proof.
  induction ts as [|t ts IH]; intros Hs; [done|].
  rewrite Merge_run_cons, settled_fixed.
  - apply IH. intros t' Hin. apply Hs, elem_of_cons. by right.
  - apply Hs, elem_of_cons. by left.
Qed.

(** A stored digest survives a run in which the pair, if visited, is
    visited with that digest. *)
Lemma Merge_run_entry ts i name version digest :
  (∀ t, t ∈ ts → t.1 = (name, version) → t.2 = digest) →
  entry i name version = Some digest →
  entry (Merge_run ts i) name version = Some digest.
Proof.
  revert i. induction ts as [|[[n v] d] ts IH]; intros i Hf He; [done|].
  rewrite Merge_run_cons. apply IH.
  - intros t Hin. apply Hf, elem_of_cons. by right.
  - unfold merge_step. destruct (has i n v); [done|].
    destruct (decide ((n, v) = (name, version))) as [[= -> ->]|Hne].
    + rewrite <-(Hf (name, version, d)); [apply entry_Add| |done].
      apply elem_of_cons. by left.
    + by rewrite entry_Add_ne.
Qed.

(** An entry that [Has] recognises is kept by every run. *)
Lemma Merge_run_had ts i name version :
  has i name version = true →
  entry (Merge_run ts i) name version = entry i name version.
Proof.
  revert i. induction ts as [|[[n v] d] ts IH]; intros i Hh; [done|].
  rewrite Merge_run_cons. unfold merge_step.
  destruct (has i n v) eqn:Hn; [by apply IH|].
  rewrite IH by by apply has_Add.
  apply entry_Add_ne. intros [= -> ->]. congruence.
Qed.

Lemma Merge_had i src i' name version :
  has i name version = true →
  Merge i src i' → entry i' name version = entry i name version.
Proof. intros Hh (ts & _ & ->)%Merge_iff. by apply Merge_run_had. Qed.

(** A triple of [src] for which [Has] answers no in every index is
    written to the destination by every merge. *)
Lemma Merge_writes i src i' name version digest :
  (∀ j, has j name version = false) →
  triple_of src (name, version, digest) →
  Merge i src i' → entry i' name version = Some digest.
Proof.
  intros Hno Ht (ts & Htr & ->)%Merge_iff.
  pose proof Ht as Hin. apply (traversal_elem src ts _ Htr) in Hin.
  apply list_elem_of_split in Hin as (ts1 & ts2 & ->).
  rewrite Merge_run_app, Merge_run_cons. apply Merge_run_entry.
  - intros t Hin Hp.
    apply (triple_of_functional src t (name, version, digest)); try done.
    apply (traversal_elem src _ t Htr). rewrite elem_of_app, elem_of_cons. auto.
  - unfold merge_step. rewrite Hno. apply entry_Add.
Qed.

End MergeSpec.

Section MergeClaims.
Context `{Semver}.

Implicit Types (i src : Index) (vs : gmap string string).
Implicit Types (name version digest ver : string).

(** A destination in which every triple of [src] is settled is left
    as it is. *)
Lemma Merge_settled i src i' :
  (∀ t, triple_of src t → settled i t) → Merge i src i' → i' = i.
Proof.
  intros Hs (ts & Htr & ->)%Merge_iff. apply Merge_run_fixed.
  intros t Hin. by apply Hs, (traversal_elem src ts).
Qed.

(** After a merge of [src], every triple of [src] is settled. *)
Lemma Merge_settles i src i' :
  Merge i src i' → ∀ t, triple_of src t → settled i' t.
Proof.
  intros (ts & Htr & ->)%Merge_iff t Ht. apply Merge_run_settles.
  - intros t' Hin. apply (triple_of_functional src); [|done].
    by apply (traversal_elem src ts).
  - by apply (traversal_elem src ts).
Qed.

(** The merge of a source with a single triple. *)
Lemma Merge_single i name version digest :
  Merge i {[name := {[version := digest]}]} (merge_step i (name, version, digest)).
Proof.
  apply Merge_iff. exists [(name, version, digest)]. split; [|done].
  exists [(name, {[version := digest]})]. split.
  - unfold ranges. by rewrite map_to_list_singleton.
  - apply (visits_name name {[version := digest]} [(version, digest)] [] []).
    + unfold ranges. by rewrite map_to_list_singleton.
    + constructor.
Qed.

(** C4. Merge is idempotent: after [Merge(src)] has left the
    destination in the state [i1], a second [Merge(src)] ends and
    leaves it in [i1]. *)
Theorem Merge_idempotent i src i1 :
  Merge i src i1 → ∀ i2, Merge i1 src i2 ↔ i2 = i1.
Proof.
  intros Hm.
  assert (∀ i2, Merge i1 src i2 → i2 = i1) as Hfix.
  { intros i2. apply Merge_settled. by apply (Merge_settles i). }
  intros i2. split; [apply Hfix|]. intros ->.
  destruct (Merge_total i1 src) as [i2 Hm2].
  by rewrite <-(Hfix i2 Hm2) at 2.
Qed.

(** C3 (as amended). A run of [Merge] visits the triples of [src] one
    by one, and adds the triple it visits exactly when [Has] answers no
    on the destination as it is at that point; [Has] answers by
    matching the constraint against the recorded versions, not by
    looking the key up.  A triple whose version is non-empty and does
    not parse as a constraint is never had, and every merge adds
    it. *)
Theorem Merge_adds_unless_Has i src i' :
  Merge i src i' →
  (∃ ts, traversal src ts ∧ i' = Merge_run ts i ∧
     ∀ ts1 name version digest ts2,
       ts = (ts1 ++ (name, version, digest) :: ts2)%list →
       let d := Merge_run ts1 i in
       let d' := Merge_run (ts1 ++ [(name, version, digest)]) i in
       (Has d name version false → d' = Add d name version digest) ∧
       (Has d name version true → d' = d)) ∧
  (∀ d name version b,
     Has d name version b →
     b = true ↔ ∃ vs c, d !! name = Some vs ∧ constraint_of version = inr c ∧
                        satisfiable c vs) ∧
  (∀ name version digest msg,
     version ≠ "" → NewConstraint version = inl msg →
     (∀ d b, Has d name version b → b = false) ∧
     (triple_of src (name, version, digest) →
      entry i' name version = Some digest)).
Proof.
  intros Hm. split; [|split].
  - pose proof Hm as (ts & Htr & ->)%Merge_iff. exists ts.
    split; [done|split; [done|]].
    intros ts1 name version digest ts2 _ d d'. subst d d'.
    rewrite Merge_run_app. simpl.
    split; intros Hh%Has_iff; by rewrite <-Hh.
  - intros d name version b ->%Has_iff. apply has_true_iff.
  - intros name version digest msg Hne Hc. split.
    + intros d b ->%Has_iff. by apply (has_invalid_constraint _ _ _ msg).
    + intros Ht. apply (Merge_writes i src); try done.
      intros j. by apply (has_invalid_constraint _ _ _ msg).
Qed.

End MergeClaims.

(** ** The code on concrete indices

    The lemmas below run the code with the instance [Masterminds.semver]
    of the semver interface. *)

Lemma ranges_list_to_map {V} (l : list (string * V)) :
  NoDup l.*1 → ranges (list_to_map l) l.
Proof. intros Hnd. unfold ranges. symmetry. by apply map_to_list_to_map. Qed.

Lemma triple_of_single name version digest t :
  triple_of {[name := {[version := digest]}]} t → t = (name, version, digest).
Proof.
  destruct t as [[n v] d]. intros (vm & Hn & Hv). simpl in *.
  apply lookup_singleton_Some in Hn as [<- <-].
  by apply lookup_singleton_Some in Hv as [<- <-].
Qed.

(** C1, counterexample.  The index holds ["v1.0.0"] for ["a"]; after
    [Add("a", "1.0.0", "D2")], a run of [Get("a", "1.0.0")] that meets
    ["v1.0.0"] first returns its digest ["D1"]: both keys parse to the
    version 1.0.0, which the constraint ["1.0.0"] accepts. *)
Lemma Add_then_Get_other_key :
  let i : Index := {["a" := {["v1.0.0" := "D1"]}]} in
  NewVersion "1.0.0" = Some (Masterminds.mkVersion 1 0 0) ∧
  NewConstraint "1.0.0" =
    inr (Masterminds.Cmp Masterminds.OpEq (Masterminds.mkVersion 1 0 0)) ∧
  Get (Add i "a" "1.0.0" "D2") "a" "1.0.0" ("D1", None) ∧
  "D1" ≠ "D2".
Proof.
  repeat split; [|done].
  exists [("v1.0.0", "D1"); ("1.0.0", "D2")]. split; [|by vm_compute].
  replace (tags_of _ _) with
    (list_to_map [("v1.0.0", "D1"); ("1.0.0", "D2")] : gmap string string)
    by by vm_compute.
  apply ranges_list_to_map. apply (bool_decide_unpack _). by vm_compute.
Qed.

Lemma Add_then_Get_witness :
  Get (Add ∅ "a" "1.0.0" "D") "a" "1.0.0" ("D", None).
Proof.
  destruct (Add_then_Get (H:=Masterminds.semver) ∅ "a" "1.0.0" "D"
              (Masterminds.Cmp Masterminds.OpEq (Masterminds.mkVersion 1 0 0))
              (Masterminds.mkVersion 1 0 0) eq_refl eq_refl eq_refl)
    as [_ Hsame].
  apply Hsame; [|reflexivity]. intros ver d w Hl. by vm_compute in Hl.
Defined.

Lemma Get_unknown_name_witness :
  Get ∅ "a" "1.0.0" ("", Some ErrNoBundleName).
Proof.
  apply (Get_unknown_name ∅ "a" "1.0.0"); reflexivity.
Defined.

Lemma Get_sound_witness :
  ∃ vs c ver v,
    ({["a" := {["1.0.0" := "D"]}]} : Index) !! "a" = Some vs ∧
    constraint_of ">=1.0.0" = inr c ∧
    vs !! ver = Some "D" ∧ NewVersion ver = Some v ∧ Check c v = true.
Proof.
  apply (Get_sound {["a" := {["1.0.0" := "D"]}]} "a" ">=1.0.0" "D").
  exists [("1.0.0", "D")]. split; [|reflexivity].
  unfold ranges. vm_compute. reflexivity.
Defined.


(** C6, counterexample.  ["a"] is present with no version: [Get]
    answers [ErrNoBundleVersion] at lines 71-73, before the
    constraint, which does not parse, is looked at. *)
Lemma Get_invalid_constraint_no_versions :
  let i : Index := {["a" := ∅]} in
  i !! "a" = Some ∅ ∧
  NewConstraint "not-a-valid-constraint!!"
    = inl "improper constraint: not-a-valid-constraint!!" ∧
  ∀ r, Get i "a" "not-a-valid-constraint!!" r ↔
       r = ("", Some ErrNoBundleVersion).
Proof.
  repeat split.
  - by intros (ord & _ & ->).
  - intros ->. exists []. split; [|done]. unfold ranges. by vm_compute.
Qed.

Lemma Get_invalid_constraint_witness :
  Get {["a" := {["1.0.0" := "D"]}]} "a" "not-a-valid-constraint!!"
      ("", Some (ErrSemver "improper constraint: not-a-valid-constraint!!")).
Proof.
  apply (Get_invalid_constraint {["a" := {["1.0.0" := "D"]}]} "a"
           {["1.0.0" := "D"]} "not-a-valid-constraint!!"
           "improper constraint: not-a-valid-constraint!!");
    try reflexivity; [apply insert_non_empty|discriminate].
Defined.

(** C2, the code at the failing input.  Destination and source hold
    the pair [("a", "latest")]; ["latest"] parses neither as a version
    nor as a constraint, so [Has] answers no and every merge replaces
    the digest ["D1"] of the destination by ["D2"]. *)
Lemma Merge_overwrites_unparseable :
  let d : Index := {["a" := {["latest" := "D1"]}]} in
  let s : Index := {["a" := {["latest" := "D2"]}]} in
  entry d "a" "latest" = Some "D1" ∧
  (∃ d', Merge d s d') ∧
  ∀ d', Merge d s d' → entry d' "a" "latest" = Some "D2".
Proof.
  split; [reflexivity|]. split; [apply Merge_total|]. intros d'.
  apply Merge_writes.
  - intros j. by apply (has_invalid_constraint _ _ _ "improper constraint: latest").
  - exists {["latest" := "D2"]}. by split.
Qed.

(** C3, counterexample.  The empty string does not parse as a
    constraint, yet [Has("a", "")] answers yes on an index with a
    parseable version of ["a"] (it resolves the wildcard), and the
    source triple [("a", "", "D2")] is not added. *)
Lemma Merge_empty_version_not_added :
  let i : Index := {["a" := {["1.0.0" := "D1"]}]} in
  let src : Index := {["a" := {["" := "D2"]}]} in
  NewConstraint "" = inl "improper constraint: " ∧
  Has i "a" "" true ∧
  (∃ i', Merge i src i') ∧
  ∀ i', Merge i src i' → entry i' "a" "" = None.
Proof.
  split; [reflexivity|]. split; [by apply Has_iff|].
  split; [apply Merge_total|]. intros i' Hm.
  apply Merge_settled in Hm as ->; [reflexivity|].
  intros t ->%triple_of_single. by left.
Qed.

Lemma Merge_adds_unless_Has_witness :
  entry (Add ∅ "a" "latest" "D") "a" "latest" = Some "D" ∧
  ∀ d b, Has d "a" "latest" b → b = false.
Proof.
  pose proof (Merge_single ∅ "a" "latest" "D") as Hm.
  destruct (Merge_adds_unless_Has _ _ _ Hm) as (_ & _ & Hbad).
  destruct (Hbad "a" "latest" "D" "improper constraint: latest")
    as [Hno Hadd]; [discriminate|reflexivity|].
  split; [|exact Hno]. apply Hadd. exists {["latest" := "D"]}. by split.
Defined.

Lemma Merge_idempotent_witness :
  let src : Index := {["a" := {["1.0.0" := "D"]}]} in
  Merge ∅ src src ∧ Merge src src src.
Proof.
  assert (Merge ∅ {["a" := {["1.0.0" := "D"]}]} {["a" := {["1.0.0" := "D"]}]})
    as Hm by exact (Merge_single ∅ "a" "1.0.0" "D").
  split; [exact Hm|].
  apply (Merge_idempotent ∅ {["a" := {["1.0.0" := "D"]}]} _ Hm). reflexivity.
Defined.

(** ** Encoding and decoding *)

Section Strings.

Lemma append_cons (x : ascii) (a b : string) : String x a ++ b = String x (a ++ b).
Proof. reflexivity. Qed.

Lemma append_nil_l (b : string) : "" ++ b = b.
Proof. reflexivity. Qed.

Lemma append_assoc (a b c : string) : (a ++ b) ++ c = a ++ b ++ c.
Proof.
  induction a as [|x a IH]; [done|]. by rewrite !append_cons, IH.
Qed.

Lemma append_nil_r (a : string) : a ++ "" = a.
Proof. induction a as [|x a IH]; [done|]. by rewrite append_cons, IH. Qed.

Lemma length_append (a b : string) :
  String.length (a ++ b) = String.length a + String.length b.
Proof.
  induction a as [|x a IH]; [done|]. rewrite append_cons. simpl. by rewrite IH.
Qed.

Lemma concat_cons (x : string) (xs : list string) :
  String.concat "" (x :: xs) = x ++ String.concat "" xs.
Proof. destruct xs; simpl; [by rewrite append_nil_r|done]. Qed.

Lemma concat_sep_cons (sep x y : string) (xs : list string) :
  String.concat sep (x :: y :: xs) = x ++ sep ++ String.concat sep (y :: xs).
Proof. done. Qed.

End Strings.

Section Utf8.
Import json.

Lemma code_inj (a b : ascii) : code a = code b → a = b.
Proof.
  unfold code. intros E.
  by rewrite <-(ascii_N_embedding a), <-(ascii_N_embedding b), E.
Qed.

Lemma eqb_code (a b : ascii) : Ascii.eqb a b = (code a =? code b)%N.
Proof.
  destruct (Ascii.eqb_spec a b) as [->|Hne]; symmetry.
  - apply N.eqb_refl.
  - apply N.eqb_neq. intros E. by apply Hne, code_inj.
Qed.

Lemma byte_in_true lo hi b :
  byte_in lo hi b = true ↔ (lo ≤ code b ∧ code b ≤ hi)%N.
Proof.
  unfold byte_in. rewrite andb_true_iff, !N.leb_le. done.
Qed.

Lemma byte_in_false lo hi b :
  (code b < lo ∨ hi < code b)%N → byte_in lo hi b = false.
Proof.
  intros Hb. destruct (byte_in lo hi b) eqn:E; [|done].
  apply byte_in_true in E. lia.
Qed.

(** The three shapes of a multi-byte encoding, and what is left. *)
Lemma width_cases b0 r0 :
  (∃ b1 r1, r0 = String b1 r1 ∧ width b0 r0 = 2 ∧
            multi_ok (String b0 (String b1 ""))) ∨
  (∃ b1 b2 r2, r0 = String b1 (String b2 r2) ∧ width b0 r0 = 3 ∧
               multi_ok (String b0 (String b1 (String b2 "")))) ∨
  (∃ b1 b2 b3 r3, r0 = String b1 (String b2 (String b3 r3)) ∧ width b0 r0 = 4 ∧
                  multi_ok (String b0 (String b1 (String b2 (String b3 ""))))) ∨
  width b0 r0 = 0.
Proof.
  unfold width. destruct (byte_in 194 223 b0) eqn:E2.
  { destruct r0 as [|b1 r1]; [by repeat right|].
    destruct (continuation b1) eqn:E; [|by repeat right].
    left. by exists b1, r1. }
  destruct (byte_in 224 239 b0) eqn:E3.
  { destruct r0 as [|b1 [|b2 r2]]; [by repeat right..|].
    destruct (second b0 b1) eqn:Es; [|by repeat right].
    destruct (continuation b2) eqn:E; [|by repeat right].
    right. left. by exists b1, b2, r2. }
  destruct (byte_in 240 244 b0) eqn:E4; [|by repeat right].
  destruct r0 as [|b1 [|b2 [|b3 r3]]]; [by repeat right..|].
  destruct (second b0 b1) eqn:Es; [|by repeat right].
  destruct (continuation b2) eqn:Ec2; [|by repeat right].
  destruct (continuation b3) eqn:Ec3; [|by repeat right].
  right. right. left. by exists b1, b2, b3, r3.
Qed.

(** The width of an encoding does not depend on what follows it. *)
Lemma width_multi b0 tail rest :
  multi_ok (String b0 tail) →
  width b0 (tail ++ rest) = String.length (String b0 tail).
Proof.
  destruct tail as [|b1 [|b2 [|b3 [|]]]]; simpl; try done.
  - intros [H0 H1]. unfold width. rewrite append_cons. by rewrite H0, H1.
  - intros (H0 & H1 & H2). unfold width. rewrite !append_cons.
    rewrite (byte_in_false 194 223), H0, H1, H2; [done|].
    apply byte_in_true in H0. lia.
  - intros (H0 & H1 & H2 & H3). unfold width. rewrite !append_cons.
    apply byte_in_true in H0 as H0'.
    rewrite (byte_in_false 194 223), (byte_in_false 224 239), H0, H1, H2, H3;
      [done|lia..].
Qed.

Lemma multi_ok_lead bytes :
  multi_ok bytes → ∃ b0 tail, bytes = String b0 tail ∧ (194 ≤ code b0)%N.
Proof.
  destruct bytes as [|b0 [|b1 [|b2 [|b3 [|]]]]]; simpl; try done.
  - intros [H0%byte_in_true _]. exists b0, (String b1 ""). split; [done|lia].
  - intros [H0%byte_in_true _]. exists b0, (String b1 (String b2 "")).
    split; [done|lia].
  - intros [H0%byte_in_true _].
    exists b0, (String b1 (String b2 (String b3 ""))). split; [done|lia].
Qed.

(** [pieces], one piece at a time. *)
Lemma pieces_step s :
  s = "" ∨
  ∃ p r, s = bytes_of p ++ r ∧ pieces s = p :: pieces r ∧
         (is_stray p = false → piece_ok p) ∧
         String.length r < String.length s.
Proof.
  destruct s as [|b0 r0]; [by left|right]. simpl.
  destruct (code b0 <? RuneSelf)%N eqn:E.
  { exists (Single b0), r0. split; [done|split; [done|split; [|lia]]].
    intros _. by apply N.ltb_lt. }
  destruct (width_cases b0 r0) as
    [(b1 & r1 & -> & -> & Hok)
    |[(b1 & b2 & r2 & -> & -> & Hok)
     |[(b1 & b2 & b3 & r3 & -> & -> & Hok)|Hw]]].
  - exists (Multi (String b0 (String b1 ""))), r1.
    split; [done|split; [done|split; [done|simpl; lia]]].
  - exists (Multi (String b0 (String b1 (String b2 "")))), r2.
    split; [done|split; [done|split; [done|simpl; lia]]].
  - exists (Multi (String b0 (String b1 (String b2 (String b3 ""))))), r3.
    split; [done|split; [done|split; [done|simpl; lia]]].
  - rewrite Hw. exists (Stray b0), r0.
    split; [done|split; [done|split; [done|simpl; lia]]].
Qed.

(** Induction over a string, piece by piece. *)
Lemma pieces_ind (P : string → Prop) :
  P "" →
  (∀ p r, pieces (bytes_of p ++ r) = p :: pieces r →
          (is_stray p = false → piece_ok p) →
          P r → P (bytes_of p ++ r)) →
  ∀ s, P s.
Proof.
  intros Hnil Hstep s. remember (String.length s) as n eqn:Hn.
  revert s Hn. induction (lt_wf n) as [n _ IH]. intros s ->.
  destruct (pieces_step s) as [->|(p & r & -> & Hp & Hok & Hlt)]; [done|].
  apply Hstep; [done..|]. by apply (IH (String.length r)).
Qed.

Lemma pieces_bytes s : String.concat "" (bytes_of <$> pieces s) = s.
Proof.
  induction s as [|p r Hp _ IH] using pieces_ind; [done|].
  by rewrite Hp, fmap_cons, concat_cons, IH.
Qed.

Lemma pieces_valid s :
  ValidString s = true → Forall piece_ok (pieces s).
Proof.
  unfold ValidString.
  induction s as [|p r Hp Hok IH] using pieces_ind; [by constructor|].
  rewrite Hp. simpl. intros [Hs Hr]%andb_true_iff. constructor; [|by apply IH].
  apply Hok. by destruct (is_stray p).
Qed.

End Utf8.

Section Decoding.
Import json.

(** What [read_string] does with the encoding of a piece. *)
Lemma read_string_single b rest :
  (code b < RuneSelf)%N →
  read_string (encode_piece (Single b) ++ rest)
  = prepend (String b "") (read_string rest).
Proof.
  destruct b as [[] [] [] [] [] [] [] []]; intros Hb;
    first [by vm_compute in Hb | reflexivity].
Qed.

Lemma read_string_high c r0 :
  (RuneSelf ≤ code c)%N →
  read_string (String c r0) =
  match width c r0, r0 with
  | 2, String b1 r1 => prepend (String c (String b1 "")) (read_string r1)
  | 3, String b1 (String b2 r2) =>
      prepend (String c (String b1 (String b2 ""))) (read_string r2)
  | 4, String b1 (String b2 (String b3 r3)) =>
      prepend (String c (String b1 (String b2 (String b3 ""))))
        (read_string r3)
  | _, _ => prepend RuneError (read_string r0)
  end.
Proof.
  intros Hc. unfold RuneSelf in Hc. simpl. rewrite !eqb_code.
  change (code quote) with 34%N. change (code backslash) with 92%N.
  destruct (N.eqb_spec (code c) 34); [lia|].
  destruct (N.eqb_spec (code c) 92); [lia|].
  destruct (N.ltb_spec (code c) 32); [lia|].
  destruct (N.ltb_spec (code c) RuneSelf); [unfold RuneSelf in *; lia|].
  done.
Qed.

Lemma read_string_multi bytes rest :
  multi_ok bytes →
  read_string (bytes ++ rest) = prepend bytes (read_string rest).
Proof.
  intros Hok. destruct (multi_ok_lead bytes Hok) as (b0 & tail & -> & Hb0).
  rewrite append_cons, read_string_high by (unfold RuneSelf; lia).
  rewrite (width_multi b0 tail rest Hok).
  by destruct tail as [|b1 [|b2 [|b3 [|]]]].
Qed.

Lemma read_string_piece p rest :
  piece_ok p →
  read_string (encode_piece p ++ rest) = prepend (bytes_of p) (read_string rest).
Proof.
  destruct p as [b|bytes|b]; intros Hok; [by apply read_string_single| |done].
  unfold encode_piece, bytes_of.
  destruct (String.eqb_spec bytes line_separator) as [->|_]; [reflexivity|].
  destruct (String.eqb_spec bytes paragraph_separator) as [->|_]; [reflexivity|].
  by apply read_string_multi.
Qed.

(** Reading back an encoded string. *)
Lemma read_string_pieces ps rest :
  Forall piece_ok ps →
  read_string (String.concat "" (encode_piece <$> ps) ++ String quote rest)
  = Some (String.concat "" (bytes_of <$> ps), rest).
Proof.
  induction 1 as [|p ps Hp _ IH]; [reflexivity|].
  rewrite !fmap_cons, !concat_cons, append_assoc, read_string_piece, IH by done.
  done.
Qed.

Lemma read_string_encode s rest :
  ValidString s = true →
  encode_string s ++ rest
  = String quote (String.concat "" (encode_piece <$> pieces s) ++ String quote rest) ∧
  read_string (String.concat "" (encode_piece <$> pieces s) ++ String quote rest)
  = Some (s, rest).
Proof.
  intros Hv. split.
  - unfold encode_string. by rewrite append_cons, append_assoc.
  - rewrite read_string_pieces by by apply pieces_valid.
    by rewrite pieces_bytes.
Qed.

Lemma skip_space_indent n rest :
  skip_space (String.concat "" (replicate n "    ") ++ rest) = skip_space rest.
Proof.
  induction n as [|n IH]; [done|].
  by rewrite replicate_S, concat_cons, append_assoc.
Qed.

Lemma skip_space_newline d rest : skip_space (newline d ++ rest) = skip_space rest.
Proof.
  unfold newline. rewrite append_cons. simpl. apply skip_space_indent.
Qed.

Lemma skip_space_idemp s : skip_space (skip_space s) = skip_space s.
Proof.
  induction s as [|c s IH]; [done|]. simpl.
  destruct (isSpace c) eqn:E; [done|]. simpl. by rewrite E.
Qed.

Lemma read_members_skip {V} (rv : string → option (V * string)) fuel acc s :
  read_members rv fuel acc (skip_space s) = read_members rv fuel acc s.
Proof. destruct fuel; [done|]. simpl. by rewrite skip_space_idemp. Qed.

Section Members.
Context {V : Type}.
Context (pv : V → string) (rv : string → option (V * string)).
Context (good : V → Prop).
Context (rv_pv : ∀ v rest, good v → rv (pv v ++ rest) = Some (v, rest)).
Context (pv_start : ∀ v rest, skip_space (pv v ++ rest) = pv v ++ rest).

(** One member, and what the loop does with what follows it. *)
Lemma read_members_text fuel acc kv rest :
  entry_ok good kv →
  read_members rv (S fuel) acc (text pv kv ++ rest) =
  match skip_space rest with
  | String c s =>
      if Ascii.eqb c "," then read_members rv fuel (put acc kv) s
      else if Ascii.eqb c "}" then Some (put acc kv, s)
      else None
  | EmptyString => None
  end.
Proof.
  intros [Hk Hv]. unfold text, member. rewrite !append_assoc.
  destruct (read_string_encode kv.1 (": " ++ pv kv.2 ++ rest) Hk) as [-> Hr].
  simpl. rewrite Hr. rewrite !append_cons, append_nil_l. simpl.
  rewrite pv_start, (rv_pv _ _ Hv). done.
Qed.

Lemma read_members_comma fuel acc kv rest :
  entry_ok good kv →
  read_members rv (S fuel) acc (text pv kv ++ "," ++ rest)
  = read_members rv fuel (put acc kv) rest.
Proof. intros Hkv. by rewrite read_members_text. Qed.

Lemma read_members_brace d fuel acc kv rest :
  entry_ok good kv →
  read_members rv (S fuel) acc (text pv kv ++ newline d ++ "}" ++ rest)
  = Some (put acc kv, rest).
Proof.
  intros Hkv. by rewrite read_members_text, skip_space_newline.
Qed.

(** The members of a written object are read back in their order. *)
Lemma read_members_texts d fuel acc l rest :
  l ≠ [] → Forall (entry_ok good) l → (List.length l ≤ fuel)%nat →
  read_members rv fuel acc
    (String.concat ("," ++ newline (S d)) (text pv <$> l) ++
     newline d ++ "}" ++ rest)
  = Some (foldl put acc l, rest).
Proof.
  intros Hne Hok. revert fuel acc Hne.
  induction Hok as [|kv l Hkv Hok IH]; intros fuel acc Hne Hf; [done|].
  destruct fuel as [|fuel]; [simpl in Hf; lia|].
  destruct l as [|kv' l].
  - by apply read_members_brace.
  - rewrite (fmap_cons _ kv), (fmap_cons _ kv'), concat_sep_cons.
    rewrite <-(fmap_cons _ kv'), !append_assoc.
    rewrite read_members_comma by done.
    rewrite <-read_members_skip, skip_space_newline, read_members_skip.
    apply IH; [done|simpl in *; lia].
Qed.

Lemma texts_start sep kv l rest :
  ∃ tail, String.concat sep (text pv <$> kv :: l) ++ rest = String quote tail.
Proof.
  assert (∀ X, ∃ tail, text pv kv ++ X = String quote tail) as Hs.
  { intros X. unfold text, member, encode_string.
    rewrite !append_cons. by eexists. }
  destruct l as [|kv' l]; [apply Hs|].
  rewrite (fmap_cons _ kv), (fmap_cons _ kv'), concat_sep_cons, append_assoc.
  apply Hs.
Qed.

(** A written object is read back, into [acc]. *)
Lemma read_object_texts d fuel acc l rest :
  Forall (entry_ok good) l → (List.length l ≤ fuel)%nat →
  ∃ tail, object d (text pv <$> l) ++ rest = String "{" tail ∧
          read_object rv fuel acc tail = Some (foldl put acc l, rest).
Proof.
  intros Hok Hf. destruct l as [|kv l].
  { exists (String "}" rest). by split. }
  eexists. split.
  { unfold object. rewrite fmap_cons, <-(fmap_cons _ kv).
    rewrite !append_assoc, append_cons, append_nil_l. reflexivity. }
  unfold read_object. rewrite skip_space_newline.
  destruct (texts_start ("," ++ newline (S d)) kv l
              (newline d ++ "}" ++ rest)) as [tail E].
  rewrite E at 1. simpl skip_space. cbv iota.
  change (Ascii.eqb quote "}") with false. cbv iota.
  rewrite <-read_members_skip, skip_space_newline, read_members_skip.
  by apply read_members_texts.
Qed.

End Members.

(** Storing the entries of a map one after the other gives the map. *)
Lemma foldl_put {V} (l : list (string * V)) acc :
  NoDup l.*1 → foldl put acc l = list_to_map l ∪ acc.
Proof.
  revert acc. induction l as [|[k v] l IH]; intros acc Hnd; simpl.
  { by rewrite (left_id_L ∅ (∪)). }
  apply NoDup_cons in Hnd as [Hk Hnd]. rewrite IH by done. unfold put. simpl.
  rewrite <-insert_union_r, insert_union_l; [done|].
  by apply not_elem_of_list_to_map_1.
Qed.

Lemma sorted_entries_perm {V} (m : gmap string V) :
  sorted_entries m ≡ₚ map_to_list m.
Proof. apply merge_sort_Permutation. Qed.

Lemma foldl_put_sorted {V} (m : gmap string V) :
  foldl put ∅ (sorted_entries m) = m.
Proof.
  rewrite foldl_put, (right_id_L ∅ (∪)).
  - symmetry. apply list_to_map_flip. symmetry. apply sorted_entries_perm.
  - rewrite sorted_entries_perm. apply NoDup_fst_map_to_list.
Qed.

Lemma sorted_entries_elem {V} (m : gmap string V) kv :
  kv ∈ sorted_entries m ↔ m !! kv.1 = Some kv.2.
Proof.
  rewrite sorted_entries_perm. destruct kv. apply elem_of_map_to_list.
Qed.

Lemma sorted_entries_length {V} (m : gmap string V) :
  List.length (sorted_entries m) = size m.
Proof. by rewrite sorted_entries_perm, length_map_to_list. Qed.

(** The length of what is written bounds the number of members. *)
Lemma length_concat_elem sep (l : list string) x :
  x ∈ l → (String.length x ≤ String.length (String.concat sep l))%nat.
Proof.
  induction l as [|y l IH]; [by intros ?%elem_of_nil|].
  destruct l as [|z l].
  - intros ->%list_elem_of_singleton. done.
  - rewrite concat_sep_cons, !length_append.
    intros [->|Hin]%elem_of_cons; [lia|]. specialize (IH Hin). lia.
Qed.

Lemma length_concat_count sep (l : list string) :
  Forall (λ x, 1 ≤ String.length x)%nat l →
  (List.length l ≤ String.length (String.concat sep l))%nat.
Proof.
  induction 1 as [|y l Hy Hl IH]; [done|].
  destruct l as [|z l]; [simpl; lia|].
  rewrite concat_sep_cons, !length_append. simpl in *. lia.
Qed.

Lemma length_object d (l : list string) :
  (String.length (String.concat ("," ++ newline (S d)) l)
   ≤ String.length (object d l))%nat.
Proof.
  destruct l as [|x l]; [simpl; lia|].
  unfold object. rewrite !length_append. lia.
Qed.

Lemma length_text {V} (pv : V → string) kv :
  (1 ≤ String.length (text pv kv))%nat ∧
  (String.length (pv kv.2) ≤ String.length (text pv kv))%nat.
Proof.
  unfold text, member, encode_string. rewrite !length_append. simpl. lia.
Qed.

Lemma length_object_count {V} (pv : V → string) d l :
  (List.length l ≤ String.length (object d (text pv <$> l)))%nat.
Proof.
  etrans; [|apply length_object]. rewrite <-(length_fmap (text pv)).
  apply length_concat_count, Forall_fmap, Forall_forall.
  intros kv _. apply length_text.
Qed.

Lemma length_object_value {V} (pv : V → string) d l kv :
  kv ∈ l →
  (String.length (pv kv.2) ≤ String.length (object d (text pv <$> l)))%nat.
Proof.
  intros Hin. etrans; [|apply length_object].
  etrans; [apply (length_text pv kv)|].
  apply length_concat_elem, list_elem_of_fmap. by exists kv.
Qed.

End Decoding.

Section RoundTrip.
Import json.

Lemma read_digest_encode digest rest :
  ValidString digest = true →
  read_digest (encode_string digest ++ rest) = Some (digest, rest).
Proof.
  intros Hv. destruct (read_string_encode digest rest Hv) as [-> Hr].
  unfold read_digest. by rewrite Ascii.eqb_refl.
Qed.

Lemma skip_space_encode_string s rest :
  skip_space (encode_string s ++ rest) = encode_string s ++ rest.
Proof. unfold encode_string. by rewrite append_cons. Qed.

Lemma valid_tags_entries tags :
  valid_tags tags →
  Forall (entry_ok (λ digest, ValidString digest = true)) (sorted_entries tags).
Proof.
  intros Hv. apply Forall_forall. intros [version digest] Hin.
  apply sorted_entries_elem in Hin. by apply Hv.
Qed.

Lemma read_tags_encode fuel tags rest :
  valid_tags tags → (size tags ≤ fuel)%nat →
  skip_space (encode_tags 1 tags ++ rest) = encode_tags 1 tags ++ rest ∧
  read_tags fuel (encode_tags 1 tags ++ rest) = Some (tags, rest).
Proof.
  intros Hv Hf.
  destruct (read_object_texts encode_string read_digest
              (λ digest, ValidString digest = true)
              read_digest_encode skip_space_encode_string
              1 fuel ∅ (sorted_entries tags) rest)
    as (tail & E & Hr).
  { by apply valid_tags_entries. }
  { by rewrite sorted_entries_length. }
  unfold encode_tags. rewrite E. split; [done|].
  unfold read_tags. rewrite Ascii.eqb_refl, Hr. by rewrite foldl_put_sorted.
Qed.

Lemma skip_space_object d members rest :
  skip_space (object d members ++ rest) = object d members ++ rest.
Proof.
  destruct members; [done|]. unfold object. by rewrite !append_cons.
Qed.

(** Decoding what [MarshalIndent] wrote, into an empty index. *)
Lemma Decode_MarshalIndent i :
  valid_index i → Decode (MarshalIndent i) ∅ = Value i.
Proof.
  intros Hv. unfold Decode, Decode_with.
  set (fuel := S (String.length (MarshalIndent i))).
  destruct (read_object_texts (encode_tags 1) (read_tags fuel)
              (λ tags, valid_tags tags ∧ (size tags ≤ fuel)%nat)
              (λ tags rest H, proj2 (read_tags_encode fuel tags rest
                                       (proj1 H) (proj2 H)))
              (λ tags rest, skip_space_object 1 _ rest)
              0 fuel ∅ (sorted_entries i) "")
    as (tail & E & Hr).
  { apply Forall_forall. intros [name tags] Hin.
    pose proof Hin as Hl. apply sorted_entries_elem in Hl.
    destruct (Hv name tags Hl) as [Hn Ht]. split; [done|]. split; [done|].
    simpl. rewrite <-sorted_entries_length.
    etrans; [apply (length_object_count encode_string 1)|].
    etrans; [apply (length_object_value (encode_tags 1) 0 _ _ Hin)|].
    unfold fuel, MarshalIndent. lia. }
  { etrans; [apply (length_object_count (encode_tags 1) 0)|].
    unfold fuel, MarshalIndent. lia. }
  rewrite append_nil_r in E. unfold MarshalIndent. rewrite E.
  simpl skip_space. cbv iota. rewrite Ascii.eqb_refl, Hr.
  by rewrite foldl_put_sorted.
Qed.

End RoundTrip.

(** ** The bound on the number of members *)

Section Fuel.
Import json.

Lemma skip_space_length s :
  (String.length (skip_space s) ≤ String.length s)%nat.
Proof.
  induction s as [|c s IH]; simpl; [done|].
  destruct (isSpace c); simpl; lia.
Qed.

Lemma prepend_Some bytes r v rest :
  prepend bytes r = Some (v, rest) → ∃ v', r = Some (v', rest).
Proof. destruct r as [[v' rest']|]; [|done]. intros [= <- <-]. by exists v'. Qed.

(** A string literal takes at least its closing quote. *)
Lemma read_string_length s v r :
  read_string s = Some (v, r) → (String.length r < String.length s)%nat.
Proof.
  remember (String.length s) as n eqn:Hn. revert s v r Hn.
  induction (lt_wf n) as [n _ IH]. intros s v r -> Hr.
  assert (∀ x bytes, (String.length x < String.length s)%nat →
            prepend bytes (read_string x) = Some (v, r) →
            (String.length r < String.length x)%nat) as Hrec.
  { intros x bytes Hx [v' Hx']%prepend_Some. by eapply IH. }
  destruct s as [|c r0]; [done|]. simpl in Hr.
  repeat case_match; simplify_eq; try done;
    try (simpl; lia);
    match goal with
    | H : prepend _ (read_string ?x) = Some _ |- _ =>
        apply Hrec in H; [simpl in H; simpl; lia|simpl; lia]
    end.
Qed.

Lemma skip_space_String s c rest :
  skip_space s = String c rest → (String.length rest < String.length s)%nat.
Proof.
  intros E. pose proof (skip_space_length s) as Hl. rewrite E in Hl.
  simpl in Hl. lia.
Qed.

Lemma read_null_length s r :
  read_null s = Some r → (String.length r < String.length s)%nat.
Proof.
  unfold read_null. intros Hr. repeat case_match; simplify_eq. simpl. lia.
Qed.

Lemma read_digest_shrinks : shrinks read_digest.
Proof.
  intros s v r. unfold read_digest. intros Hr.
  repeat case_match; simplify_eq.
  - apply read_string_length in Hr. simpl. lia.
  - match goal with H : read_null _ = Some _ |- _ =>
      apply read_null_length in H end. lia.
Qed.

Section MembersFuel.
Context {V : Type}.
Implicit Types (rv : string → option (V * string)) (acc : gmap string V).

(** The facts about lengths that one turn of the loop gives. *)
Ltac lengths Hrv :=
  repeat match goal with
    | H : skip_space _ = String _ _ |- _ => apply skip_space_String in H
    | H : read_string _ = Some _ |- _ => apply read_string_length in H
    | H : _ _ = Some (_, _) |- _ => apply Hrv in H
    end;
  repeat match goal with
    | |- context [skip_space ?x] =>
        lazymatch goal with
        | _ : (String.length (skip_space x) ≤ String.length x)%nat |- _ => fail
        | _ => pose proof (skip_space_length x)
        end
    | _ : context [skip_space ?x] |- _ =>
        lazymatch goal with
        | _ : (String.length (skip_space x) ≤ String.length x)%nat |- _ => fail
        | _ => pose proof (skip_space_length x)
        end
    end.

Lemma read_members_shrinks rv fuel acc : shrinks rv → shrinks (read_members rv fuel acc).
Proof.
  intros Hrv. revert acc. induction fuel as [|fuel IH]; intros acc s m r; [done|].
  simpl. intros Hr. repeat case_match; simplify_eq.
  - apply IH in Hr. lengths Hrv. simpl in *. lia.
  - lengths Hrv. simpl in *. lia.
Qed.

(** Past the length of the input, the bound plays no part. *)
Lemma read_members_fuel rv rv' fuel fuel' acc s :
  shrinks rv →
  (∀ x, (String.length x ≤ String.length s)%nat → rv x = rv' x) →
  (String.length s < fuel)%nat → (String.length s < fuel')%nat →
  read_members rv fuel acc s = read_members rv' fuel' acc s.
Proof.
  intros Hrv. revert fuel' acc s.
  induction fuel as [|fuel IH]; intros fuel' acc s Heq Hf Hf'; [lia|].
  destruct fuel' as [|fuel']; [lia|]. simpl.
  destruct (skip_space s) as [|c s1] eqn:E1; [done|].
  destruct (Ascii.eqb c quote); [|done].
  destruct (read_string s1) as [[key s2]|] eqn:E2; [|done].
  destruct (skip_space s2) as [|c2 s3] eqn:E3; [done|].
  destruct (Ascii.eqb c2 ":"); [|done].
  apply skip_space_String in E1, E3. apply read_string_length in E2.
  pose proof (skip_space_length s3) as E4.
  rewrite <-Heq by lia.
  destruct (rv (skip_space s3)) as [[v s4]|] eqn:E5; [|done].
  apply Hrv in E5.
  destruct (skip_space s4) as [|c4 s5] eqn:E6; [done|].
  apply skip_space_String in E6.
  destruct (Ascii.eqb c4 ","); [|done].
  apply IH; [|lia..]. intros x Hx. apply Heq. lia.
Qed.

Lemma read_object_shrinks rv fuel acc :
  shrinks rv → shrinks (read_object rv fuel acc).
Proof.
  intros Hrv s m r. unfold read_object. intros Hr.
  repeat case_match; simplify_eq.
  - lengths Hrv. simpl in *. lia.
  - by apply read_members_shrinks in Hr.
Qed.

Lemma read_object_fuel rv rv' fuel fuel' acc s :
  shrinks rv →
  (∀ x, (String.length x ≤ String.length s)%nat → rv x = rv' x) →
  (String.length s < fuel)%nat → (String.length s < fuel')%nat →
  read_object rv fuel acc s = read_object rv' fuel' acc s.
Proof.
  intros Hrv Heq Hf Hf'. unfold read_object.
  repeat case_match; try done. by apply read_members_fuel.
Qed.

End MembersFuel.

Lemma read_tags_shrinks fuel : shrinks (read_tags fuel).
Proof.
  intros s m r. unfold read_tags. intros Hr. repeat case_match; simplify_eq.
  - apply read_object_shrinks in Hr; [simpl; lia|apply read_digest_shrinks].
  - match goal with H : read_null _ = Some _ |- _ =>
      apply read_null_length in H end. lia.
Qed.

Lemma read_tags_fuel fuel fuel' s :
  (String.length s < fuel)%nat → (String.length s < fuel')%nat →
  read_tags fuel s = read_tags fuel' s.
Proof.
  intros Hf Hf'. unfold read_tags. repeat case_match; try done.
  apply read_object_fuel; [apply read_digest_shrinks|done|simpl in *; lia..].
Qed.

(** [Decode] does not depend on its bound: any larger one gives the
    same result. *)
Lemma Decode_fuel fuel input i :
  (String.length input < fuel)%nat → Decode_with fuel input i = Decode input i.
Proof.
  intros Hf. unfold Decode, Decode_with.
  destruct (skip_space input) as [|c rest] eqn:E; [done|].
  apply skip_space_String in E. destruct (Ascii.eqb c "{"); [|done].
  rewrite (read_object_fuel (read_tags fuel) (read_tags (S (String.length input)))
             fuel (S (String.length input))); [done| | |lia..].
  - apply read_tags_shrinks.
  - intros x Hx. apply read_tags_fuel; lia.
Qed.


End Fuel.

(** ** loadIndex and WriteFile *)

(** C8. An empty stream is not an error: the decoder reports [io.EOF],
    and [loadIndex] returns an index without names and no error. *)
Theorem loadIndex_empty :
  json.Decode "" ∅ = json.EOF ∧ loadIndex "" = Loaded ∅.
Proof. split; reflexivity. Qed.

(** C9 (as amended). For an index whose names, versions and digests
    are valid UTF-8, decoding the bytes [WriteFile] writes gives back
    an index with the same entries. *)
Theorem WriteFile_loadIndex i :
  valid_index i → loadIndex (WriteFile_bytes i) = Loaded i.
Proof.
  intros Hv. unfold loadIndex, WriteFile_bytes.
  by rewrite Decode_MarshalIndent.
Qed.

Lemma WriteFile_loadIndex_witness :
  let i : Index :=
    {["mybundle" := {["1.0.0" := "sha256:aaa"; "1.2.0" := "sha256:bbb"]}]} in
  loadIndex (WriteFile_bytes i) = Loaded i.
Proof.
  apply (WriteFile_loadIndex
           {["mybundle" := {["1.0.0" := "sha256:aaa"; "1.2.0" := "sha256:bbb"]}]}).
  apply (bool_decide_unpack _). vm_compute. exact I.
Defined.

(** C9, counterexample.  The digest is the single byte 0xFF, which is
    not UTF-8: [MarshalIndent] writes the escape of U+FFFD in its
    place, and the decoder reads the three bytes of U+FFFD. *)
Lemma WriteFile_loadIndex_not_utf8 :
  let i : Index := {["a" := {["1.0.0" := String "255" ""]}]} in
  loadIndex (WriteFile_bytes i)
    = Loaded {["a" := {["1.0.0" := json.RuneError]}]} ∧
  loadIndex (WriteFile_bytes i) ≠ Loaded i.
Proof.
  split; [by vm_compute|]. intros E. by vm_compute in E.
Qed.

(** * Further properties of the index *)

(** ** Add, entry by entry *)

Section AddMore.
Context `{Semver}.

Implicit Types (i src : Index) (vs : gmap string string).
Implicit Types (name version digest ver : string).

Lemma Add_lookup_name i name version digest name' :
  Add i name version digest !! name' =
  if decide (name = name') then Some (<[version := digest]> (tags_of i name))
  else i !! name'.
Proof.
  case_decide as Hn; [subst; apply Add_lookup|by apply Add_lookup_ne].
Qed.

(** X1. [Add(name, version, digest)] stores [digest] under
    [(name, version)] and leaves the digest of every other pair, of
    this name or another, as it was. *)
Theorem Add_entry i name version digest name' version' :
  entry (Add i name version digest) name' version' =
  if decide ((name, version) = (name', version')) then Some digest
  else entry i name' version'.
Proof.
  case_decide as Hp.
  - injection Hp as <- <-. apply entry_Add.
  - by apply entry_Add_ne.
Qed.

(** X2. [Add] keeps every name and every version that was recorded:
    the names after it are the names before it and [name], and the
    versions of [name] are those it had and [version]. *)
Theorem Add_names i name version digest :
  dom (Add i name version digest) = {[name]} ∪ dom i ∧
  dom (tags_of (Add i name version digest) name)
    = {[version]} ∪ dom (tags_of i name).
Proof.
  split.
  - unfold Add. destruct (i !! name); apply dom_insert_L.
  - rewrite tags_of_Add. apply dom_insert_L.
Qed.

(** X3. The last [Add] of a pair wins: adding [(name, version)] twice
    leaves the index that the second [Add] alone gives. *)
Theorem Add_Add i name version digest digest' :
  Add (Add i name version digest) name version digest'
  = Add i name version digest'.
Proof.
  apply map_eq. intros n. rewrite !Add_lookup_name.
  repeat case_decide; try done.
  by rewrite tags_of_Add, insert_insert_eq.
Qed.

(** X4. Two [Add]s of different pairs commute. *)
Theorem Add_comm i name version digest name' version' digest' :
  (name, version) ≠ (name', version') →
  Add (Add i name version digest) name' version' digest'
  = Add (Add i name' version' digest') name version digest.
Proof.
  intros Hne. apply map_eq. intros n. rewrite !Add_lookup_name.
  destruct (decide (name = name')) as [<-|Hn].
  - rewrite !tags_of_Add. case_decide; [|done].
    rewrite insert_insert_ne; [done|]. by intros <-.
  - rewrite !tags_of_Add_ne by done.
    repeat case_decide; simplify_eq; done.
Qed.

Lemma Add_comm_witness :
  Add (Add ∅ "a" "1.0.0" "D1") "a" "2.0.0" "D2"
  = Add (Add ∅ "a" "2.0.0" "D2") "a" "1.0.0" "D1".
Proof. apply (Add_comm ∅ "a" "1.0.0" "D1" "a" "2.0.0" "D2"). discriminate. Defined.

End AddMore.

(** ** Get and Has, whatever the order of the iteration *)

Section GetMore.
Context `{Semver}.

Implicit Types (i src : Index) (vs : gmap string string).
Implicit Types (name version digest ver : string).

(** [Get] depends on the index through the version map of [name]
    only. *)
Lemma Get_same_tags i j name version r :
  i !! name = j !! name → Get i name version r ↔ Get j name version r.
Proof.
  intros E. unfold Get, Get_run, tags_of. by rewrite E.
Qed.

(** What [Get] may return past its first two guards, in terms of the
    content of the version map. *)
Lemma Get_iff i name version vs c r :
  i !! name = Some vs → constraint_of version = inr c →
  Get i name version r ↔
  (∃ ver digest v, r = (digest, None) ∧ vs !! ver = Some digest ∧
                   NewVersion ver = Some v ∧ Check c v = true) ∨
  (r = ("", Some ErrNoBundleVersion) ∧ ¬ satisfiable c vs).
Proof.
  intros Hi Hc. split.
  - intros (ord & Hr & ->). rewrite (tags_of_Some _ _ _ Hi) in Hr.
    destruct (decide (vs = ∅)) as [->|Hne].
    { right. unfold Get_run. rewrite Hi, map_size_empty. simpl. split; [done|].
      intros (ver & d & v & Hl & _). by rewrite lookup_empty in Hl. }
    rewrite (Get_run_scan ord i name version vs c) by done.
    destruct (scan_result c ord) as [[d Hs]|Hs]; rewrite Hs.
    + left. apply scan_found in Hs as (ver & v & Hin & Hv & Hcv).
      exists ver, d, v. repeat split; try done. by apply (ranges_elem vs ord).
    + right. split; [done|]. intros Hsat%(scan_ok_iff c vs ord Hr).
      by rewrite Hs in Hsat.
  - intros [(ver & d & v & -> & Hl & Hv & Hcv)|[-> Hno]].
    + exists ((ver, d) :: map_to_list (delete ver vs)). split.
      { rewrite (tags_of_Some _ _ _ Hi). unfold ranges.
        by apply map_to_list_delete. }
      assert (vs ≠ ∅) as Hne by (intros ->; by rewrite lookup_empty in Hl).
      rewrite (Get_run_scan _ i name version vs c) by done.
      simpl. by rewrite Hv, Hcv.
    + exists (map_to_list (tags_of i name)). split; [apply ranges_canonical|].
      rewrite (tags_of_Some _ _ _ Hi).
      destruct (decide (vs = ∅)) as [->|Hne].
      { unfold Get_run. by rewrite Hi, map_size_empty. }
      rewrite (Get_run_scan _ i name version vs c) by done.
      destruct (scan_result c (map_to_list vs)) as [[d Hs]|Hs]; [|done].
      destruct Hno. apply (scan_ok_iff c vs (map_to_list vs)).
      { apply ranges_canonical. }
      by rewrite Hs.
Qed.

(** A failed run fixes the result of every run. *)
Lemma Get_run_error ord ord' i name version e :
  ranges (tags_of i name) ord → ranges (tags_of i name) ord' →
  (Get_run ord i name version).2 = Some e →
  Get_run ord' i name version = ("", Some e).
Proof.
  intros Hr Hr'. unfold Get_run.
  destruct (i !! name) as [vs|] eqn:Hi; [|by intros [= <-]].
  rewrite (tags_of_Some _ _ _ Hi) in Hr, Hr'.
  destruct (size vs =? 0)%nat; [by intros [= <-]|].
  destruct (constraint_of version) as [msg|c]; [by intros [= <-]|].
  intros Hs.
  destruct (scan_result c ord) as [[d Hs']|Hs']; rewrite Hs' in Hs; [done|].
  injection Hs as <-.
  destruct (scan_result c ord') as [[d Hd]|Hd]; [|done].
  assert ((scan c ord).2 = None) as Hok.
  { apply (scan_ok_iff c vs ord Hr), (scan_ok_iff c vs ord' Hr').
    by rewrite Hd. }
  by rewrite Hs' in Hok.
Qed.

(** The errors a run of [Get] can return. *)
Lemma Get_run_errors ord i name version e :
  (Get_run ord i name version).2 = Some e →
  e = ErrNoBundleName ∨ e = ErrNoBundleVersion ∨ ∃ msg, e = ErrSemver msg.
Proof.
  unfold Get_run. destruct (i !! name) as [vs|]; [|intros [= <-]; by left].
  destruct (size vs =? 0)%nat; [intros [= <-]; right; by left|].
  destruct (constraint_of version) as [msg|c]; [intros [= <-]; right; right; by exists msg|].
  destruct (scan_result c ord) as [[d Hs]|Hs]; rewrite Hs; [done|].
  intros [= <-]. right. by left.
Qed.

(** X5. [Has] does not depend on the order of the iteration, although
    [Get] does: all runs of [Has] give the same answer, and it is yes
    exactly when a run of [Get] returns a digest, in which case every
    run of [Get] returns one. *)
Theorem Has_Get i name version :
  (∀ b b', Has i name version b → Has i name version b' → b = b') ∧
  (Has i name version true ↔ ∃ digest, Get i name version (digest, None)) ∧
  (Has i name version true →
   ∀ r, Get i name version r → ∃ digest, r = (digest, None)).
Proof.
  split; [|split].
  - intros b b' ->%Has_iff ->%Has_iff. done.
  - split.
    + intros (ord & Hr & Hb). exists (Get_run ord i name version).1.
      exists ord. split; [done|]. unfold Has_run in Hb.
      destruct (Get_run ord i name version) as [d [e|]]; done.
    + intros (d & ord & Hr & Hg). exists ord. split; [done|].
      unfold Has_run. by rewrite <-Hg.
  - intros Hh%Has_iff r (ord & Hr & ->).
    rewrite <-(Has_run_order ord) in Hh by done. unfold Has_run in Hh.
    destruct (Get_run ord i name version) as [d [e|]]; [done|by exists d].
Qed.

(** X6. Every recorded version that parses and satisfies the
    constraint can be the one [Get] returns: there is an order of the
    iteration in which [Get] returns its digest.  No highest version
    is looked for. *)
Theorem Get_any_match i name version vs c ver digest v :
  i !! name = Some vs → constraint_of version = inr c →
  vs !! ver = Some digest → NewVersion ver = Some v → Check c v = true →
  Get i name version (digest, None).
Proof.
  intros Hi Hc Hl Hv Hcv. apply (Get_iff i name version vs c); [done..|].
  left. by exists ver, digest, v.
Qed.

(** X7. When all the recorded versions of [name] that parse and
    satisfy the constraint carry the same digest, [Get] returns that
    digest in every order of the iteration. *)
Theorem Get_unique i name version vs c ver digest v :
  i !! name = Some vs → constraint_of version = inr c →
  vs !! ver = Some digest → NewVersion ver = Some v → Check c v = true →
  (∀ ver' digest' v', vs !! ver' = Some digest' → NewVersion ver' = Some v' →
                      Check c v' = true → digest' = digest) →
  ∀ r, Get i name version r ↔ r = (digest, None).
Proof.
  intros Hi Hc Hl Hv Hcv Hsame r. split.
  - intros Hg.
    destruct (proj1 (Get_iff i name version vs c r Hi Hc) Hg)
      as [(ver' & d' & v' & -> & Hl' & Hv' & Hcv')|[_ Hno]].
    + by rewrite (Hsame ver' d' v').
    + destruct Hno. by exists ver, digest, v.
  - intros ->. apply (Get_iff i name version vs c); [done..|].
    left. by exists ver, digest, v.
Qed.

(** X8. [Get] fails in four cases and no other, each with its error,
    whatever the order of the iteration: the name is unknown; the name
    has no version; the constraint does not parse; no recorded version
    parses and satisfies the constraint. *)
Theorem Get_fails i name version e :
  Get i name version ("", Some e) ↔
  (i !! name = None ∧ e = ErrNoBundleName) ∨
  (i !! name = Some ∅ ∧ e = ErrNoBundleVersion) ∨
  (∃ vs msg, i !! name = Some vs ∧ vs ≠ ∅ ∧
             constraint_of version = inl msg ∧ e = ErrSemver msg) ∨
  (∃ vs c, i !! name = Some vs ∧ vs ≠ ∅ ∧ constraint_of version = inr c ∧
           ¬ satisfiable c vs ∧ e = ErrNoBundleVersion).
Proof.
  destruct (i !! name) as [vs|] eqn:Hi.
  2: { split.
       - intros (ord & _ & Hg). unfold Get_run in Hg. rewrite Hi in Hg.
         left. split; [done|congruence].
       - intros [[? ?]|[[? ?]|[(vs' & msg' & ? & ? & ? & ?)|(vs' & c' & ? & ? & ? & ? & ?)]]];
         simplify_eq; try done.
         exists []. split; [|by unfold Get_run; rewrite Hi].
         unfold ranges, tags_of. rewrite Hi. simpl. by rewrite map_to_list_empty. }
  destruct (decide (vs = ∅)) as [->|Hne].
  { split.
    - intros (ord & _ & Hg). unfold Get_run in Hg.
      rewrite Hi, map_size_empty in Hg. simpl in Hg.
      right. left. split; [done|congruence].
    - intros [[? ?]|[[? ?]|[(vs' & msg' & ? & ? & ? & ?)|(vs' & c' & ? & ? & ? & ? & ?)]]];
         simplify_eq; try done.
      exists []. split; [|by unfold Get_run; rewrite Hi, map_size_empty].
      unfold ranges, tags_of. rewrite Hi. simpl. by rewrite map_to_list_empty. }
  destruct (constraint_of version) as [msg|c] eqn:Hc.
  - split.
    + intros (ord & _ & Hg). unfold Get_run in Hg.
      rewrite Hi, size_nonzero, Hc in Hg by done.
      right. right. left. exists vs, msg. repeat split; try done. congruence.
    + intros [[? ?]|[[? ?]|[(vs' & msg' & ? & ? & ? & ?)|(vs' & c' & ? & ? & ? & ? & ?)]]];
         simplify_eq; try done.
      destruct (Get_total i name version) as (r & ord & Hr & ->).
      exists ord. split; [done|]. unfold Get_run.
      by rewrite Hi, size_nonzero, Hc.
  - rewrite (Get_iff i name version vs c) by done. split.
    + intros [(? & ? & ? & ? & _)|[[= <-] Hno]]; [done|].
      right. right. right. by exists vs, c.
    + intros [[? ?]|[[? ?]|[(vs' & msg' & ? & ? & ? & ?)|(vs' & c' & ? & ? & ? & ? & ?)]]];
         simplify_eq; try done.
      by right.
Qed.

(** X9. A run of [Get] returns a digest and no error, or no digest
    and one of three errors; and when a run fails, every run fails,
    with the same error: only the digest depends on the order. *)
Theorem Get_failure_stable i name version r :
  Get i name version r →
  (∃ digest, r = (digest, None)) ∨
  (∃ e, r = ("", Some e) ∧
        (e = ErrNoBundleName ∨ e = ErrNoBundleVersion ∨ ∃ msg, e = ErrSemver msg) ∧
        ∀ r', Get i name version r' → r' = r).
Proof.
  intros (ord & Hr & ->).
  destruct (Get_run ord i name version) as [d [e|]] eqn:Hg; [right|left; by exists d].
  assert (∀ ord', ranges (tags_of i name) ord' →
                  Get_run ord' i name version = ("", Some e)) as Hall.
  { intros ord' Hr'. apply (Get_run_error ord); [done..|]. by rewrite Hg. }
  rewrite (Hall ord Hr) in Hg. injection Hg as <-.
  exists e. split; [done|]. split.
  - apply (Get_run_errors ord i name version). by rewrite Hall.
  - intros r' (ord' & Hr' & ->). by apply Hall.
Qed.

End GetMore.

Section GetAdd.
Context `{Semver}.

Implicit Types (i src : Index) (vs : gmap string string).
Implicit Types (name version digest ver : string).

(** X10. Recording a version that does not parse changes nothing to
    what [Get] returns for a known name and a constraint that parses:
    the loop skips it. *)
Theorem Get_Add_unparseable i name vs version c ver digest r :
  i !! name = Some vs → constraint_of version = inr c →
  NewVersion ver = None →
  Get (Add i name ver digest) name version r ↔ Get i name version r.
Proof.
  intros Hi Hc Hv.
  pose proof (Add_lookup i name ver digest) as Hi'.
  rewrite (tags_of_Some _ _ _ Hi) in Hi'.
  rewrite (Get_iff _ name version _ c r Hi' Hc), (Get_iff i name version vs c r Hi Hc).
  assert (∀ k d v, NewVersion k = Some v →
            <[ver:=digest]> vs !! k = Some d ↔ vs !! k = Some d) as Hk.
  { intros k d v Hkv. rewrite lookup_insert_ne; [done|]. intros <-. congruence. }
  assert (satisfiable c (<[ver:=digest]> vs) ↔ satisfiable c vs) as Hs.
  { split; intros (k & d & v & Hl & Hkv & Hcv); exists k, d, v;
      (split; [by apply (Hk k d v)|done]). }
  split.
  - intros [(k & d & v & -> & Hl & Hkv & Hcv)|[-> Hno]].
    + left. exists k, d, v. by rewrite <-(Hk k d v).
    + right. by rewrite <-Hs.
  - intros [(k & d & v & -> & Hl & Hkv & Hcv)|[-> Hno]].
    + left. exists k, d, v. by rewrite (Hk k d v).
    + right. by rewrite Hs.
Qed.

(** X11. [Add] under one name changes nothing to what [Get] returns
    for another name. *)
Theorem Get_Add_other i name version digest name' version' r :
  name ≠ name' →
  Get (Add i name version digest) name' version' r ↔ Get i name' version' r.
Proof.
  intros Hne. apply Get_same_tags. by apply Add_lookup_ne.
Qed.

(** X12. [Add] never turns a yes of [Has] into a no, for any pair. *)
Theorem Has_Add i name version digest name' version' :
  Has i name' version' true →
  Has (Add i name version digest) name' version' true.
Proof.
  intros Hh%Has_iff. apply Has_iff. symmetry. apply has_Add. by symmetry.
Qed.

End GetAdd.

(** ** Merge, entry by entry *)

Section MergeMore.
Context `{Semver}.

Implicit Types (i src : Index) (vs : gmap string string).
Implicit Types (name version digest ver : string).
Implicit Types (t : string * string * string).
Implicit Types (ts : list (string * string * string)).

Lemma triple_of_entry src name version digest :
  triple_of src (name, version, digest) ↔ entry src name version = Some digest.
Proof.
  unfold triple_of, entry, tags_of. simpl. split.
  - intros (vm & -> & Hv). done.
  - destruct (src !! name) as [vm|]; simpl; [|by rewrite lookup_empty].
    intros Hv. by exists vm.
Qed.

Lemma entry_Some_lookup i name version digest :
  entry i name version = Some digest →
  ∃ vs, i !! name = Some vs ∧ vs !! version = Some digest.
Proof. intros Ht. by apply triple_of_entry in Ht. Qed.

(** A run that visits no triple of [name] leaves its version map. *)
Lemma Merge_run_other_names ts i name :
  (∀ t, t ∈ ts → t.1.1 ≠ name) → Merge_run ts i !! name = i !! name.
Proof.
  revert i. induction ts as [|[[n v] d] ts IH]; intros i Hts; [done|].
  rewrite Merge_run_cons, IH.
  - unfold merge_step. destruct (has i n v); [done|].
    apply Add_lookup_ne. apply (Hts (n, v, d)), elem_of_cons. by left.
  - intros t Hin. apply Hts, elem_of_cons. by right.
Qed.

(** After a run, a pair holds what it held or what a visited triple
    brought. *)
Lemma Merge_run_entry_from ts i name version :
  entry (Merge_run ts i) name version = entry i name version ∨
  ∃ digest, (name, version, digest) ∈ ts ∧
            entry (Merge_run ts i) name version = Some digest.
Proof.
  revert i. induction ts as [|[[n v] d] ts IH]; intros i; [by left|].
  rewrite Merge_run_cons.
  destruct (IH (merge_step i (n, v, d))) as [->|(d' & Hin & ->)].
  - unfold merge_step. destruct (has i n v); [by left|].
    destruct (decide ((n, v) = (name, version))) as [[= -> ->]|Hne].
    + right. exists d. split; [apply elem_of_cons; by left|apply entry_Add].
    + left. by apply entry_Add_ne.
  - right. exists d'. split; [apply elem_of_cons; by right|done].
Qed.

(** The names after a run. *)
Lemma Merge_run_dom ts i name :
  name ∈ dom (Merge_run ts i) ↔ name ∈ dom i ∨ ∃ t, t ∈ ts ∧ t.1.1 = name.
Proof.
  revert i. induction ts as [|[[n v] d] ts IH]; intros i.
  { split; [by left|]. intros [?|(t & ?%elem_of_nil & _)]; done. }
  rewrite Merge_run_cons, IH.
  assert (name ∈ dom (merge_step i (n, v, d)) ↔ name ∈ dom i ∨ n = name) as Hstep.
  { unfold merge_step. destruct (has i n v) eqn:Hh.
    - split; [by left|]. intros [?| <-]; [done|].
      apply has_true_iff in Hh as (vs & _ & Hi & _). by apply elem_of_dom.
    - assert (dom (Add i n v d) = {[n]} ∪ dom i) as ->
        by (unfold Add; destruct (i !! n); apply dom_insert_L).
      rewrite elem_of_union, elem_of_singleton.
      split; intros [?|?]; subst; auto. }
  rewrite Hstep. split.
  - intros [[?| <-]|(t & Hin & Ht)]; [by left| |].
    + right. exists (n, v, d). split; [apply elem_of_cons; by left|done].
    + right. exists t. split; [apply elem_of_cons; by right|done].
  - intros [?|(t & [->|Hin]%elem_of_cons & Ht)]; [by left; left| |].
    + left. by right.
    + right. by exists t.
Qed.

(** X13. A source that brings nothing new leaves the destination as
    it is: if every pair of [src] is recognised by [Has] in [i] or
    stored in [i] with the digest [src] has for it, every merge of
    [src] into [i] ends in [i]. *)
Theorem Merge_nothing_new i src :
  (∀ name version digest, entry src name version = Some digest →
     Has i name version true ∨ entry i name version = Some digest) →
  ∀ i', Merge i src i' ↔ i' = i.
Proof.
  intros Hcov.
  assert (∀ i', Merge i src i' → i' = i) as Hfix.
  { intros i'. apply Merge_settled. intros [[n v] d] Ht%triple_of_entry.
    destruct (Hcov n v d Ht) as [Hh%Has_iff|He]; [by left|by right]. }
  intros i'. split; [apply Hfix|]. intros ->.
  destruct (Merge_total i src) as [i' Hm]. by rewrite <-(Hfix i' Hm) at 2.
Qed.

(** X14. Merging the empty index, or an index into itself, changes
    nothing. *)
Theorem Merge_empty_self i :
  (∀ i', Merge i ∅ i' ↔ i' = i) ∧ (∀ i', Merge i i i' ↔ i' = i).
Proof.
  assert (∀ src, (∀ t, triple_of src t → settled i t) →
                 ∀ i', Merge i src i' ↔ i' = i) as Hno.
  { intros src Hs i'. split; [by apply Merge_settled|]. intros ->.
    destruct (Merge_total i src) as [i' Hm].
    by rewrite <-(Merge_settled i src i' Hs Hm) at 2. }
  split; apply Hno.
  - intros t (vm & Hl & _). by rewrite lookup_empty in Hl.
  - intros [[n v] d] Ht%triple_of_entry. by right.
Qed.

(** X15. After a merge a pair holds the digest it held in the
    destination, or the digest the source has for it: nothing is
    removed, nothing comes from elsewhere, and a pair that the source
    does not have is left as it was. *)
Theorem Merge_entry i src i' name version :
  Merge i src i' →
  entry i' name version = entry i name version ∨
  (is_Some (entry src name version) ∧
   entry i' name version = entry src name version).
Proof.
  intros (ts & Htr & ->)%Merge_iff.
  destruct (Merge_run_entry_from ts i name version) as [?|(d & Hin & Hd)];
    [by left|right].
  apply (traversal_elem src ts _ Htr), triple_of_entry in Hin.
  rewrite Hin. split; [by eexists|done].
Qed.

(** X16. The names after a merge are the names of the destination and
    the names of the source that have a version; a name that the
    source records without any version is not copied.  The version
    map of a name under which the source has no version is left as it
    was. *)
Theorem Merge_dom i src i' :
  Merge i src i' →
  (∀ name, name ∈ dom i' ↔
           name ∈ dom i ∨ ∃ vm, src !! name = Some vm ∧ vm ≠ ∅) ∧
  (∀ name, tags_of src name = ∅ → i' !! name = i !! name).
Proof.
  intros (ts & Htr & ->)%Merge_iff. split.
  - intros name. rewrite Merge_run_dom. split.
    + intros [?|([[n v] d] & Hin & Hn)]; [by left|right]. simpl in Hn. subst n.
      apply (traversal_elem src ts _ Htr) in Hin as (vm & Hl & Hv).
      exists vm. split; [done|]. intros ->. simpl in Hv.
      by rewrite lookup_empty in Hv.
    + intros [?|(vm & Hl & Hne)]; [by left|right].
      apply map_choose in Hne as (v & d & Hv).
      exists (name, v, d). split; [|done].
      apply (traversal_elem src ts _ Htr). by exists vm.
  - intros name Hnone. apply Merge_run_other_names.
    intros [[n v] d] Hin Hn. simpl in Hn. subst n.
    apply (traversal_elem src ts _ Htr), triple_of_entry in Hin.
    unfold entry in Hin. by rewrite Hnone, lookup_empty in Hin.
Qed.

(** X17. A pair that [Has] recognises in the destination keeps its
    digest through every merge, whatever the source holds for it. *)
Theorem Merge_keeps_recognised i src i' name version :
  Has i name version true → Merge i src i' →
  entry i' name version = entry i name version.
Proof.
  intros Hh%Has_iff Hm. by apply (Merge_had i src).
Qed.

(** X18. A merge never turns a yes of [Has] into a no. *)
Theorem Merge_Has i src i' name version :
  Has i name version true → Merge i src i' → Has i' name version true.
Proof.
  intros Hh%Has_iff (ts & _ & ->)%Merge_iff. apply Has_iff. symmetry.
  symmetry in Hh. revert i Hh.
  induction ts as [|[[n v] d] ts IH]; intros i Hh; [done|].
  rewrite Merge_run_cons. apply IH. unfold merge_step.
  destruct (has i n v); [done|by apply has_Add].
Qed.

(** X19. After a merge, every pair of the source is recognised by
    [Has] in the destination or stored there with the digest of the
    source; it is recognised whenever its version parses as a version
    and as a constraint which that version satisfies. *)
Theorem Merge_covers i src i' name version digest :
  Merge i src i' → entry src name version = Some digest →
  (Has i' name version true ∨ entry i' name version = Some digest) ∧
  (∀ c v, constraint_of version = inr c → NewVersion version = Some v →
          Check c v = true → Has i' name version true).
Proof.
  intros Hm Hs%triple_of_entry.
  pose proof (Merge_settles i src i' Hm _ Hs) as Hset.
  unfold settled in Hset. simpl in Hset.
  assert (Has i' name version true ∨ entry i' name version = Some digest) as Hcov.
  { destruct Hset as [Hh|He]; [left; by apply Has_iff|by right]. }
  split; [done|]. intros c v Hc Hv Hcv.
  destruct Hcov as [?|(vs & Hi & Hl)%entry_Some_lookup]; [done|].
  apply Has_iff. symmetry. apply has_true_iff. exists vs, c.
  split; [done|]. split; [done|]. by exists version, digest, v.
Qed.

(** X20. Merging an index with a single entry is [Add], unless [Has]
    recognises the pair. *)
Theorem Merge_single_entry i name version digest i' :
  Merge i {[name := {[version := digest]}]} i' ↔
  (Has i name version true ∧ i' = i) ∨
  (Has i name version false ∧ i' = Add i name version digest).
Proof.
  assert (∀ ts, traversal {[name := {[version := digest]}]} ts →
                ts = [(name, version, digest)]) as Hts.
  { intros ts (ords & Hr & Hv). unfold ranges in Hr.
    rewrite map_to_list_singleton in Hr.
    apply Permutation_singleton_r in Hr as ->.
    inversion Hv as [|n vm ord rest ts' Hr' Hv' E1 E2]; subst.
    inversion Hv'; subst. unfold ranges in Hr'.
    rewrite map_to_list_singleton in Hr'.
    by apply Permutation_singleton_r in Hr' as ->. }
  split.
  - intros (ts & ->%Hts & ->)%Merge_iff. unfold Merge_run. simpl.
    destruct (has i name version) eqn:Hh; [left|right];
      (split; [by apply Has_iff|done]).
  - intros [[Hh%Has_iff ->]|[Hh%Has_iff ->]];
      pose proof (Merge_single i name version digest) as Hm;
      unfold merge_step in Hm; by rewrite <-Hh in Hm.
Qed.

(** X21. A merge changes nothing to what [Get] returns for a name
    under which the source has no version. *)
Theorem Merge_Get_other i src i' name version r :
  tags_of src name = ∅ → Merge i src i' →
  Get i' name version r ↔ Get i name version r.
Proof.
  intros Hnone (ts & Htr & ->)%Merge_iff. apply Get_same_tags.
  apply Merge_run_other_names. intros [[n v] d] Hin Hn. simpl in Hn. subst n.
  apply (traversal_elem src ts _ Htr), triple_of_entry in Hin.
  unfold entry in Hin. by rewrite Hnone, lookup_empty in Hin.
Qed.

End MergeMore.

(** ** The properties above on concrete indices *)

Lemma Get_any_match_witness :
  Get {["a" := {["1.0.0" := "D1"; "2.0.0" := "D2"]}]} "a" ">=1.0.0" ("D1", None) ∧
  Get {["a" := {["1.0.0" := "D1"; "2.0.0" := "D2"]}]} "a" ">=1.0.0" ("D2", None).
Proof.
  split.
  - apply (Get_any_match (H:=Masterminds.semver)
             {["a" := {["1.0.0" := "D1"; "2.0.0" := "D2"]}]} "a" ">=1.0.0"
             {["1.0.0" := "D1"; "2.0.0" := "D2"]}
             (Masterminds.Cmp Masterminds.OpGe (Masterminds.mkVersion 1 0 0))
             "1.0.0" "D1" (Masterminds.mkVersion 1 0 0)); reflexivity.
  - apply (Get_any_match (H:=Masterminds.semver)
             {["a" := {["1.0.0" := "D1"; "2.0.0" := "D2"]}]} "a" ">=1.0.0"
             {["1.0.0" := "D1"; "2.0.0" := "D2"]}
             (Masterminds.Cmp Masterminds.OpGe (Masterminds.mkVersion 1 0 0))
             "2.0.0" "D2" (Masterminds.mkVersion 2 0 0)); reflexivity.
Defined.

Lemma Get_unique_witness :
  Get {["a" := {["1.0.0" := "D1"; "latest" := "D2"]}]} "a" "" ("D1", None) ∧
  ∀ r, Get {["a" := {["1.0.0" := "D1"; "latest" := "D2"]}]} "a" "" r ↔
       r = ("D1", None).
Proof.
  assert (∀ r, Get {["a" := {["1.0.0" := "D1"; "latest" := "D2"]}]} "a" "" r ↔
               r = ("D1", None)) as Hu.
  { apply (Get_unique (H:=Masterminds.semver)
             {["a" := {["1.0.0" := "D1"; "latest" := "D2"]}]} "a" ""
             {["1.0.0" := "D1"; "latest" := "D2"]} Masterminds.Any
             "1.0.0" "D1" (Masterminds.mkVersion 1 0 0)); try reflexivity.
    intros ver' digest' v' Hl Hv.
    apply lookup_insert_Some in Hl as [[_ <-]|[_ Hl]]; [done|].
    apply lookup_singleton_Some in Hl as [<- _]. discriminate Hv. }
  split; [by apply Hu|exact Hu].
Defined.

Lemma Get_failure_stable_witness :
  let i : Index := {["a" := {["1.0.0" := "D"]}]} in
  (∃ digest, ("", Some ErrNoBundleVersion) = (digest, None)) ∨
  (∃ e, ("", Some ErrNoBundleVersion) = ("", Some e) ∧
        (e = ErrNoBundleName ∨ e = ErrNoBundleVersion ∨ ∃ msg, e = ErrSemver msg) ∧
        ∀ r', Get i "a" ">1.0.0" r' → r' = ("", Some ErrNoBundleVersion)).
Proof.
  apply (Get_failure_stable (H:=Masterminds.semver)
           {["a" := {["1.0.0" := "D"]}]} "a" ">1.0.0").
  exists [("1.0.0", "D")]. split; [|reflexivity].
  unfold ranges. vm_compute. reflexivity.
Defined.

Lemma Get_Add_unparseable_witness :
  let i : Index := {["a" := {["1.0.0" := "D"]}]} in
  Get (Add i "a" "latest" "E") "a" "1.0.0" ("D", None) ↔
  Get i "a" "1.0.0" ("D", None).
Proof.
  apply (Get_Add_unparseable (H:=Masterminds.semver)
           {["a" := {["1.0.0" := "D"]}]} "a" {["1.0.0" := "D"]} "1.0.0"
           (Masterminds.Cmp Masterminds.OpEq (Masterminds.mkVersion 1 0 0))
           "latest" "E"); reflexivity.
Defined.

Lemma Get_Add_other_witness :
  let i : Index := {["a" := {["1.0.0" := "D"]}]} in
  Get (Add i "b" "1.0.0" "E") "a" "1.0.0" ("D", None) ↔
  Get i "a" "1.0.0" ("D", None).
Proof.
  apply (Get_Add_other (H:=Masterminds.semver)
           {["a" := {["1.0.0" := "D"]}]} "b" "1.0.0" "E" "a" "1.0.0").
  discriminate.
Defined.

Lemma Has_Add_witness :
  let i : Index := {["a" := {["1.0.0" := "D"]}]} in
  Has (Add i "a" "0.9.0" "E") "a" ">=1.0.0" true.
Proof.
  apply (Has_Add (H:=Masterminds.semver)
           {["a" := {["1.0.0" := "D"]}]} "a" "0.9.0" "E" "a" ">=1.0.0").
  exists [("1.0.0", "D")]. split; [|reflexivity].
  unfold ranges. vm_compute. reflexivity.
Defined.

Lemma Merge_nothing_new_witness :
  let i : Index := {["a" := {["1.0.0" := "D1"]}]} in
  let src : Index := {["a" := {["1.0.0" := "D2"]}]} in
  Merge i src i.
Proof.
  apply (Merge_nothing_new (H:=Masterminds.semver)
           {["a" := {["1.0.0" := "D1"]}]} {["a" := {["1.0.0" := "D2"]}]});
    [|reflexivity].
  intros name version digest (vs & Hn & Hv)%entry_Some_lookup.
  apply lookup_singleton_Some in Hn as [<- <-].
  apply lookup_singleton_Some in Hv as [<- <-].
  left. exists [("1.0.0", "D1")]. split; [|reflexivity].
  unfold ranges. vm_compute. reflexivity.
Defined.

Lemma Merge_entry_witness :
  let src : Index := {["a" := {["1.0.0" := "D"]}]} in
  entry src "a" "1.0.0" = entry (∅ : Index) "a" "1.0.0" ∨
  (is_Some (entry src "a" "1.0.0") ∧
   entry src "a" "1.0.0" = entry src "a" "1.0.0").
Proof.
  apply (Merge_entry (H:=Masterminds.semver) ∅ {["a" := {["1.0.0" := "D"]}]}
           {["a" := {["1.0.0" := "D"]}]} "a" "1.0.0").
  exact (Merge_single ∅ "a" "1.0.0" "D").
Defined.

Lemma Merge_dom_witness :
  let src : Index := {["a" := {["1.0.0" := "D"]}]} in
  (∀ name, name ∈ dom src ↔
           name ∈ dom (∅ : Index) ∨ ∃ vm, src !! name = Some vm ∧ vm ≠ ∅) ∧
  (∀ name, tags_of src name = ∅ → src !! name = (∅ : Index) !! name).
Proof.
  apply (Merge_dom (H:=Masterminds.semver) ∅ {["a" := {["1.0.0" := "D"]}]}
           {["a" := {["1.0.0" := "D"]}]}).
  exact (Merge_single ∅ "a" "1.0.0" "D").
Defined.

Lemma Merge_keeps_recognised_witness :
  let i : Index := {["a" := {["1.0.0" := "D"]}]} in
  entry (Add i "a" "latest" "E") "a" "1.0.0" = entry i "a" "1.0.0".
Proof.
  apply (Merge_keeps_recognised (H:=Masterminds.semver)
           {["a" := {["1.0.0" := "D"]}]} {["a" := {["latest" := "E"]}]}
           _ "a" "1.0.0").
  - exists [("1.0.0", "D")]. split; [|reflexivity].
    unfold ranges. vm_compute. reflexivity.
  - exact (Merge_single {["a" := {["1.0.0" := "D"]}]} "a" "latest" "E").
Defined.

Lemma Merge_Has_witness :
  let i : Index := {["a" := {["1.0.0" := "D"]}]} in
  Has (Add i "b" "2.0.0" "E") "a" "1.0.0" true.
Proof.
  apply (Merge_Has (H:=Masterminds.semver) {["a" := {["1.0.0" := "D"]}]}
           {["b" := {["2.0.0" := "E"]}]} _ "a" "1.0.0").
  - exists [("1.0.0", "D")]. split; [|reflexivity].
    unfold ranges. vm_compute. reflexivity.
  - exact (Merge_single {["a" := {["1.0.0" := "D"]}]} "b" "2.0.0" "E").
Defined.

Lemma Merge_covers_witness :
  let src : Index := {["a" := {["1.0.0" := "D"]}]} in
  (Has src "a" "1.0.0" true ∨ entry src "a" "1.0.0" = Some "D") ∧
  (∀ c v, constraint_of "1.0.0" = inr c → NewVersion "1.0.0" = Some v →
          Check c v = true → Has src "a" "1.0.0" true).
Proof.
  apply (Merge_covers (H:=Masterminds.semver) ∅ {["a" := {["1.0.0" := "D"]}]}
           {["a" := {["1.0.0" := "D"]}]} "a" "1.0.0" "D"); [|reflexivity].
  exact (Merge_single ∅ "a" "1.0.0" "D").
Defined.

Lemma Merge_Get_other_witness :
  let i : Index := {["b" := {["1.0.0" := "D"]}]} in
  Get (Add i "a" "2.0.0" "E") "b" "1.0.0" ("D", None) ↔
  Get i "b" "1.0.0" ("D", None).
Proof.
  apply (Merge_Get_other (H:=Masterminds.semver) {["b" := {["1.0.0" := "D"]}]}
           {["a" := {["2.0.0" := "E"]}]} _ "b" "1.0.0" ("D", None));
    [reflexivity|].
  exact (Merge_single {["b" := {["1.0.0" := "D"]}]} "a" "2.0.0" "E").
Defined.

(** ** More on loadIndex and WriteFile *)

Section Streams.
Import json.

Lemma skip_space_blank ws r : blank ws = true → skip_space (ws ++ r) = skip_space r.
Proof.
  induction ws as [|c ws IH]; [done|]. intros Hb. simpl in Hb.
  apply andb_true_iff in Hb as [Hc Hws]. rewrite append_cons. simpl.
  rewrite Hc. by apply IH.
Qed.

Lemma Decode_blank ws r i : blank ws = true → Decode (ws ++ r) i = Decode r i.
Proof.
  intros Hws. rewrite <-(Decode_fuel (S (String.length (ws ++ r))) r).
  - unfold Decode, Decode_with. by rewrite skip_space_blank.
  - rewrite length_append. lia.
Qed.

(** Decoding what [MarshalIndent] wrote, whatever follows it. *)
Lemma Decode_MarshalIndent_app i rest :
  valid_index i → Decode (MarshalIndent i ++ rest) ∅ = Value i.
Proof.
  intros Hv. unfold Decode, Decode_with.
  set (fuel := S (String.length (MarshalIndent i ++ rest))).
  assert (String.length (MarshalIndent i) < fuel)%nat as Hfuel
    by (unfold fuel; rewrite length_append; lia).
  destruct (read_object_texts (encode_tags 1) (read_tags fuel)
              (λ tags, valid_tags tags ∧ (size tags ≤ fuel)%nat)
              (λ tags rest H, proj2 (read_tags_encode fuel tags rest
                                       (proj1 H) (proj2 H)))
              (λ tags rest, skip_space_object 1 _ rest)
              0 fuel ∅ (sorted_entries i) rest)
    as (tail & E & Hr).
  { apply Forall_forall. intros [name tags] Hin.
    pose proof Hin as Hl. apply sorted_entries_elem in Hl.
    destruct (Hv name tags Hl) as [Hn Ht]. split; [done|]. split; [done|].
    simpl. rewrite <-sorted_entries_length.
    etrans; [apply (length_object_count encode_string 1)|].
    etrans; [apply (length_object_value (encode_tags 1) 0 _ _ Hin)|].
    unfold MarshalIndent in Hfuel. lia. }
  { etrans; [apply (length_object_count (encode_tags 1) 0)|].
    unfold MarshalIndent in Hfuel. lia. }
  unfold MarshalIndent. rewrite E.
  simpl skip_space. cbv iota. rewrite Ascii.eqb_refl, Hr.
  by rewrite foldl_put_sorted.
Qed.

End Streams.

(** X22. Blanks before the first value are skipped, and a stream of
    blanks only is read like the empty stream: an index without names
    and no error. *)
Theorem loadIndex_blank ws r :
  blank ws = true →
  loadIndex (ws ++ r) = loadIndex r ∧ loadIndex ws = Loaded ∅.
Proof.
  intros Hws.
  assert (∀ r, loadIndex (ws ++ r) = loadIndex r) as Hskip.
  { intros r'. unfold loadIndex. by rewrite Decode_blank. }
  split; [apply Hskip|]. by rewrite <-(append_nil_r ws), Hskip.
Qed.

(** X23. [loadIndex] reads the first value of the stream and nothing
    after it: whatever bytes follow what [WriteFile] wrote for a valid
    index, the index is loaded, without error. *)
Theorem loadIndex_first_value i rest :
  valid_index i → loadIndex (WriteFile_bytes i ++ rest) = Loaded i.
Proof.
  intros Hv. unfold loadIndex, WriteFile_bytes.
  by rewrite Decode_MarshalIndent_app.
Qed.

(** X24. [WriteFile] writes different bytes for different valid
    indices. *)
Theorem WriteFile_bytes_inj i j :
  valid_index i → valid_index j →
  WriteFile_bytes i = WriteFile_bytes j → i = j.
Proof.
  intros Hi Hj E.
  assert (json.Value i = json.Value j) as [= ->]; [|done].
  rewrite <-(Decode_MarshalIndent i Hi), <-(Decode_MarshalIndent j Hj).
  unfold WriteFile_bytes in E. by rewrite E.
Qed.

Lemma loadIndex_blank_witness :
  loadIndex (String "010" "  " ++ "{}") = loadIndex "{}" ∧
  loadIndex (String "010" "  ") = Loaded ∅.
Proof. apply (loadIndex_blank (String "010" "  ") "{}"). reflexivity. Defined.

Lemma loadIndex_first_value_witness :
  let i : Index := {["mybundle" := {["1.0.0" := "sha256:aaa"]}]} in
  loadIndex (WriteFile_bytes i ++ "}{ not JSON") = Loaded i.
Proof.
  apply (loadIndex_first_value {["mybundle" := {["1.0.0" := "sha256:aaa"]}]}).
  apply (bool_decide_unpack _). vm_compute. exact I.
Defined.

Lemma WriteFile_bytes_inj_witness :
  Add ∅ "a" "1.0.0" "D" = {["a" := {["1.0.0" := "D"]}]}.
Proof.
  apply (WriteFile_bytes_inj (Add ∅ "a" "1.0.0" "D") {["a" := {["1.0.0" := "D"]}]}).
  - apply (bool_decide_unpack _). vm_compute. exact I.
  - apply (bool_decide_unpack _). vm_compute. exact I.
  - reflexivity.
Defined.

(** ** Strings that are not UTF-8 *)

Section Coercion.
Import json.

Lemma read_string_replaced p rest :
  (is_stray p = false → piece_ok p) →
  read_string (encode_piece p ++ rest) = prepend (replaced p) (read_string rest).
Proof.
  intros Hok. destruct p as [b|bytes|b]; [| |reflexivity];
    by apply read_string_piece, Hok.
Qed.

Lemma read_string_coerce s rest :
  read_string (String.concat "" (encode_piece <$> pieces s) ++ String quote rest)
  = Some (coerce s, rest).
Proof.
  unfold coerce. revert rest.
  induction s as [|p r Hp Hok IH] using pieces_ind; intros rest; [reflexivity|].
  rewrite Hp, !fmap_cons, !concat_cons, append_assoc.
  rewrite read_string_replaced, IH by done. done.
Qed.

Lemma encode_string_app s rest :
  encode_string s ++ rest
  = String quote (String.concat "" (encode_piece <$> pieces s) ++ String quote rest).
Proof. unfold encode_string. by rewrite append_cons, append_assoc. Qed.

Lemma pieces_high b0 r0 :
  (RuneSelf ≤ code b0)%N →
  pieces (String b0 r0) =
  match width b0 r0, r0 with
  | 2, String b1 r1 => Multi (String b0 (String b1 "")) :: pieces r1
  | 3, String b1 (String b2 r2) =>
      Multi (String b0 (String b1 (String b2 ""))) :: pieces r2
  | 4, String b1 (String b2 (String b3 r3)) =>
      Multi (String b0 (String b1 (String b2 (String b3 "")))) :: pieces r3
  | _, _ => Stray b0 :: pieces r0
  end.
Proof.
  intros Hb. simpl. by destruct (N.ltb_spec (code b0) RuneSelf); [lia|].
Qed.

(** A piece is cut out again from what starts with its bytes. *)
Lemma pieces_ok p r : piece_ok p → pieces (bytes_of p ++ r) = p :: pieces r.
Proof.
  destruct p as [b|bytes|b]; [| |done].
  - intros Hb%N.ltb_lt. simpl bytes_of. rewrite append_cons, append_nil_l.
    simpl. by rewrite Hb.
  - intros Hok. simpl in Hok. simpl bytes_of.
    destruct (multi_ok_lead bytes Hok) as (b0 & tail & -> & Hb0).
    rewrite append_cons, pieces_high by (unfold RuneSelf; lia).
    rewrite (width_multi b0 tail r Hok).
    destruct tail as [|b1 [|b2 [|b3 [|]]]]; simpl in Hok; try done.
Qed.

Lemma piece_ok_not_stray p : piece_ok p → is_stray p = false.
Proof. by destruct p. Qed.

Lemma ValidString_coerce s : ValidString (coerce s) = true.
Proof.
  unfold coerce. induction s as [|p r Hp Hok IH] using pieces_ind; [done|].
  rewrite Hp, fmap_cons, concat_cons.
  assert (∃ q, replaced p = bytes_of q ∧ piece_ok q) as (q & -> & Hq).
  { destruct p as [b|bytes|b].
    - exists (Single b). split; [done|by apply Hok].
    - exists (Multi bytes). split; [done|by apply Hok].
    - exists (Multi RuneError). split; [done|]. by vm_compute. }
  unfold ValidString in *. rewrite pieces_ok by done. simpl.
  by rewrite (piece_ok_not_stray q Hq).
Qed.

(** A valid string is left as it is. *)
Lemma coerce_valid s : ValidString s = true → coerce s = s.
Proof.
  intros Hv%pieces_valid. unfold coerce. rewrite <-(pieces_bytes s) at 2.
  f_equal. apply list_eq_Forall2, Forall2_fmap, Forall_Forall2_diag.
  eapply Forall_impl; [exact Hv|]. by intros [| |].
Qed.

Section MembersRead.
Context {V : Type}.
Context (pv : V → string) (rv : string → option (V * string)) (cv : V → V).
Context (good : V → Prop).
Context (rv_pv : ∀ v rest, good v → rv (pv v ++ rest) = Some (cv v, rest)).
Context (pv_start : ∀ v rest, skip_space (pv v ++ rest) = pv v ++ rest).

Lemma read_members_text_any fuel acc kv rest :
  good kv.2 →
  read_members rv (S fuel) acc (text pv kv ++ rest) =
  match skip_space rest with
  | String c s =>
      if Ascii.eqb c "," then read_members rv fuel (put_read cv acc kv) s
      else if Ascii.eqb c "}" then Some (put_read cv acc kv, s)
      else None
  | EmptyString => None
  end.
Proof.
  intros Hv. unfold text, member. rewrite !append_assoc, encode_string_app.
  simpl. rewrite read_string_coerce. rewrite !append_cons, append_nil_l. simpl.
  rewrite pv_start, (rv_pv _ _ Hv). done.
Qed.

Lemma read_members_texts_any d fuel acc l rest :
  l ≠ [] → Forall (λ kv, good kv.2) l → (List.length l ≤ fuel)%nat →
  read_members rv fuel acc
    (String.concat ("," ++ newline (S d)) (text pv <$> l) ++
     newline d ++ "}" ++ rest)
  = Some (foldl (put_read cv) acc l, rest).
Proof.
  intros Hne Hok. revert fuel acc Hne.
  induction Hok as [|kv l Hkv Hok IH]; intros fuel acc Hne Hf; [done|].
  destruct fuel as [|fuel]; [simpl in Hf; lia|].
  destruct l as [|kv' l].
  - change (String.concat _ (text pv <$> [kv])) with (text pv kv).
    by rewrite read_members_text_any, skip_space_newline.
  - rewrite (fmap_cons _ kv), (fmap_cons _ kv'), concat_sep_cons.
    rewrite <-(fmap_cons _ kv'), !append_assoc.
    rewrite read_members_text_any by done.
    rewrite append_cons, append_nil_l. simpl skip_space. cbv iota.
    rewrite <-read_members_skip, skip_space_newline, read_members_skip.
    apply IH; [done|simpl in *; lia].
Qed.

Lemma read_object_texts_any d fuel acc l rest :
  Forall (λ kv, good kv.2) l → (List.length l ≤ fuel)%nat →
  ∃ tail, object d (text pv <$> l) ++ rest = String "{" tail ∧
          read_object rv fuel acc tail = Some (foldl (put_read cv) acc l, rest).
Proof.
  intros Hok Hf. destruct l as [|kv l].
  { exists (String "}" rest). by split. }
  eexists. split.
  { unfold object. rewrite fmap_cons, <-(fmap_cons _ kv).
    rewrite !append_assoc, append_cons, append_nil_l. reflexivity. }
  unfold read_object. rewrite skip_space_newline.
  destruct (texts_start pv ("," ++ newline (S d)) kv l
              (newline d ++ "}" ++ rest)) as [tail E].
  rewrite E at 1. simpl skip_space. cbv iota.
  change (Ascii.eqb quote "}") with false. cbv iota.
  rewrite <-read_members_skip, skip_space_newline, read_members_skip.
  by apply read_members_texts_any.
Qed.

Lemma foldl_put_read_Forall (P : string → V → Prop) l acc :
  (∀ kv, kv ∈ l → P (coerce kv.1) (cv kv.2)) →
  map_Forall P acc → map_Forall P (foldl (put_read cv) acc l).
Proof.
  revert acc. induction l as [|kv l IH]; intros acc Hl Hacc; [done|].
  simpl. apply IH.
  - intros kv' Hin. apply Hl, elem_of_cons. by right.
  - apply map_Forall_insert_2; [|done]. apply Hl, elem_of_cons. by left.
Qed.

End MembersRead.

Lemma read_digest_coerce digest rest :
  read_digest (encode_string digest ++ rest) = Some (coerce digest, rest).
Proof.
  rewrite encode_string_app. unfold read_digest.
  by rewrite Ascii.eqb_refl, read_string_coerce.
Qed.

Lemma read_tags_reread fuel tags rest :
  (size tags ≤ fuel)%nat →
  read_tags fuel (encode_tags 1 tags ++ rest) = Some (reread coerce tags, rest).
Proof.
  intros Hf.
  destruct (read_object_texts_any encode_string read_digest coerce
              (λ _, True) (λ digest rest _, read_digest_coerce digest rest)
              skip_space_encode_string
              1 fuel ∅ (sorted_entries tags) rest)
    as (tail & E & Hr).
  { by apply Forall_forall. }
  { by rewrite sorted_entries_length. }
  unfold encode_tags. rewrite E.
  unfold read_tags. by rewrite Ascii.eqb_refl, Hr.
Qed.

Lemma valid_tags_reread tags : valid_tags (reread coerce tags).
Proof.
  apply foldl_put_read_Forall; [|apply map_Forall_empty].
  intros kv _. split; apply ValidString_coerce.
Qed.

(** Decoding what [MarshalIndent] wrote for any index. *)
Lemma Decode_MarshalIndent_any i :
  Decode (MarshalIndent i) ∅ = Value (reread (reread coerce) i).
Proof.
  unfold Decode, Decode_with.
  set (fuel := S (String.length (MarshalIndent i))).
  destruct (read_object_texts_any (encode_tags 1) (read_tags fuel) (reread coerce)
              (λ tags, (size tags ≤ fuel)%nat)
              (λ tags rest H, read_tags_reread fuel tags rest H)
              (λ tags rest, skip_space_object 1 _ rest)
              0 fuel ∅ (sorted_entries i) "")
    as (tail & E & Hr).
  { apply Forall_forall. intros [name tags] Hin.
    simpl. rewrite <-sorted_entries_length.
    etrans; [apply (length_object_count encode_string 1)|].
    etrans; [apply (length_object_value (encode_tags 1) 0 _ _ Hin)|].
    unfold fuel, MarshalIndent. lia. }
  { etrans; [apply (length_object_count (encode_tags 1) 0)|].
    unfold fuel, MarshalIndent. lia. }
  rewrite append_nil_r in E. unfold MarshalIndent. rewrite E.
  simpl skip_space. cbv iota. by rewrite Ascii.eqb_refl, Hr.
Qed.

Lemma valid_index_reread i : valid_index (reread (reread coerce) i).
Proof.
  apply foldl_put_read_Forall; [|apply map_Forall_empty].
  intros kv _. split; [apply ValidString_coerce|apply valid_tags_reread].
Qed.

End Coercion.

(** X25. [loadIndex] reads whatever [WriteFile] wrote, for every
    index: it returns no error, the index it returns holds valid UTF-8
    only, and writing and loading that index again gives it back. *)
Theorem WriteFile_loadIndex_any i :
  ∃ i', loadIndex (WriteFile_bytes i) = Loaded i' ∧ valid_index i' ∧
        loadIndex (WriteFile_bytes i') = Loaded i'.
Proof.
  exists (reread (reread coerce) i).
  pose proof (valid_index_reread i) as Hv.
  unfold loadIndex, WriteFile_bytes.
  by rewrite Decode_MarshalIndent_any, (Decode_MarshalIndent _ Hv).
Qed.
